(** * RspackCircularDependencyPlugin: the cycle detector of [src/index.ts]

    A shallow embedding of the plugin's index construction ([apply], the
    [Object.fromEntries] pipeline), of the depth-first search [isCyclic]
    and of the reporting branch of [apply], followed by the properties the
    specification states about them.

    Conventions of the embedding.
    - A module id is a string, a number, [null] or [undefined], as the
      host declares it ([JsId]); numeric ids are the non-negative integers
      bundlers emit, which [String] prints in decimal.  [String(id)], which is also the property key an id is
      turned into, is [jsString]; [===] against a string is [strictEq].
    - [modulesById] and [seenModules] are plain JavaScript objects.  Their
      own properties are a [gmap] and a [gset]; both inherit the twelve
      properties of [Object.prototype], which a lookup ([getProperty]) and
      the [in] operator ([inObject]) see.  [seenModules] is represented by
      the set of ids assigned to it: the assignment of [__proto__] is
      swallowed by the inherited setter, which [in] cannot tell, since
      [__proto__] is inherited anyway.
    - A [RegExp] is used only through [String.prototype.match] in a boolean
      position, so it is the predicate "this string has a match" (patterns
      whose matching does not depend on [lastIndex]).
    - [seenModules] is one mutable object shared by the whole search: the
      embedding threads it through every call and returns it.
    - Recursion is bounded by a fuel argument; [isCyclic_no_timeout] and
      [isCyclic_fuel] show that [S (size modulesById)] is always enough and
      that more fuel never changes a result. *)

From Stdlib Require Import Ascii String DecimalString NArith.
From stdpp Require Import gmap strings list fin_maps relations.

Local Open Scope string_scope.
#[local] Set Warnings "-clear-no-such-hyp".

(** ** Data model *)

(** The values a module id takes: [id?: string | number | null]. *)
Inductive JsId :=
  | IdString (s : string)
  | IdNumber (n : N)
  | IdNull
  | IdUndefined.

(** [StatsModuleReason]: one inbound reference.  Both fields are optional
    in the host's declaration; an absent [moduleId] is [IdUndefined]. *)
Module Reason.
Record t := Build { moduleId : JsId; type : option string }.
End Reason.

(** [StatsModule]: the fields the plugin reads.  An absent [orphan] flag is
    falsy, hence [false]. *)
Module StatsModule.
Record t := Build {
  id : JsId;
  name : option string;
  orphan : bool;
  reasons : option (list Reason.t)
}.
End StatsModule.

(** The own properties of [modulesById]. *)
Abbreviation ModuleMap := (gmap string StatsModule.t).

(** A regular expression, as far as [name.match(re)] is concerned. *)
Definition RegExp := string → bool.

(** Values pushed on [compilation.errors] and [compilation.warnings]:
    either [new Error(message)] built by the plugin or whatever value a
    callback threw. *)
Inductive HostError :=
  | NewError (message : string)
  | Thrown (value : string).

Record Compilation := { errors : list HostError; warnings : list HostError }.

(** A user callback receives [paths] and the compilation, may mutate the
    compilation, and either returns ([None]) or throws a value. *)
Definition Callback := list string → Compilation → Compilation * option string.

Record Options := {
  opt_exclude : option RegExp;
  opt_include : option RegExp;
  opt_failOnError : option bool;
  opt_allowAsyncCycles : option bool;
  opt_onDetected : option Callback
}.

Record FullOptions := {
  exclude : RegExp;
  include : RegExp;
  failOnError : bool;
  allowAsyncCycles : bool;
  onDetected : option Callback
}.

(** ** Small JavaScript helpers *)

Definition truthy (s : string) : bool :=
  match s with EmptyString => false | String _ _ => true end.

(** [String(n)] for a non-negative integer. *)
Definition numToString (n : N) : string :=
  NilEmpty.string_of_uint (N.to_uint n).

(** [String(id)]; also the property key [obj[id]] and [id in obj] use. *)
Definition jsString (i : JsId) : string :=
  match i with
  | IdString s => s
  | IdNumber n => numToString n
  | IdNull => "null"
  | IdUndefined => "undefined"
  end.

(** The truthiness of an id: [""], [0], [null] and [undefined] are falsy. *)
Definition truthyId (i : JsId) : bool :=
  match i with
  | IdString s => truthy s
  | IdNumber n => negb (N.eqb n 0)
  | IdNull => false
  | IdUndefined => false
  end.

(** [id === s] for a string [s]: never true of a number. *)
Definition strictEq (i : JsId) (s : string) : bool :=
  match i with
  | IdString s' => bool_decide (s' = s)
  | _ => false
  end.

(** [hay.match(/needle/)] for a literal needle: substring search. *)
Fixpoint includes (needle hay : string) : bool :=
  String.prefix needle hay ||
  match hay with
  | EmptyString => false
  | String _ rest => includes needle rest
  end.

(** [/$^/] matches only the empty string, [/.*/] matches every string. *)
Definition re_empty_only : RegExp := fun s => negb (truthy s).
Definition re_any : RegExp := fun _ => true.

(** [/dynamic import|import\(\)/]. *)
Definition re_dynamic : RegExp :=
  fun s => includes "dynamic import" s || includes "import()" s.

Definition BASE_ERROR : string :=
  "Circular dependency detected:" ++ String "013"%char (String "010"%char EmptyString).

(** [path?.replace(/^\.\//, "")]. *)
Definition normalizePath (path : option string) : option string :=
  match path with
  | None => None
  | Some (String "."%char (String "/"%char rest)) => Some rest
  | Some p => Some p
  end.

(** [a ?? b]. *)
Definition nullish (a : option string) (b : string) : string :=
  match a with Some s => s | None => b end.

(** [paths.join(sep)]. *)
Definition join (sep : string) (paths : list string) : string :=
  String.concat sep paths.

(** ** Plain objects *)

(** The properties of [Object.prototype], each with the [name] of its
    value: [constructor] is the function [Object], [__proto__] reads as
    [Object.prototype] itself, which has no [name], and the others are
    functions named like the property.  None of these values has an [id] or
    [reasons]. *)
Definition objectPrototype : list (string * option string) :=
  [("constructor", Some "Object");
   ("__defineGetter__", Some "__defineGetter__");
   ("__defineSetter__", Some "__defineSetter__");
   ("hasOwnProperty", Some "hasOwnProperty");
   ("__lookupGetter__", Some "__lookupGetter__");
   ("__lookupSetter__", Some "__lookupSetter__");
   ("isPrototypeOf", Some "isPrototypeOf");
   ("propertyIsEnumerable", Some "propertyIsEnumerable");
   ("toString", Some "toString");
   ("valueOf", Some "valueOf");
   ("__proto__", None);
   ("toLocaleString", Some "toLocaleString")].

(** The [name] of the inherited property [k], when [k] is inherited. *)
Definition inherited (k : string) : option (option string) :=
  snd <$> List.find (fun e => String.eqb e.1 k) objectPrototype.

Definition isInherited (k : string) : bool :=
  match inherited k with Some _ => true | None => false end.

(** What [modulesById[k]] evaluates to, when it is not [undefined]. *)
Inductive Property :=
  | Own (module : StatsModule.t)
  | Inherited (name : option string).

(** [modulesById[k]]. *)
Definition getProperty (modulesById : ModuleMap) (k : string) : option Property :=
  match modulesById !! k with
  | Some module => Some (Own module)
  | None => Inherited <$> inherited k
  end.

(** [p?.name]. *)
Definition propertyName (p : option Property) : option string :=
  match p with
  | Some (Own module) => StatsModule.name module
  | Some (Inherited name) => name
  | None => None
  end.

(** [p.reasons ?? []] for a [p] that is not [undefined]. *)
Definition propertyReasons (p : Property) : list Reason.t :=
  match p with
  | Own module => default [] (StatsModule.reasons module)
  | Inherited _ => []
  end.

(** [k in seenModules]. *)
Definition inObject (seenModules : gset string) (k : string) : bool :=
  bool_decide (k ∈ seenModules) || isInherited k.

(** ** The plugin *)

Definition constructor (options : Options) : FullOptions :=
  {| exclude := default re_empty_only (opt_exclude options);
     include := default re_any (opt_include options);
     failOnError := default false (opt_failOnError options);
     allowAsyncCycles := default false (opt_allowAsyncCycles options);
     onDetected := opt_onDetected options |}.

(** The [filter] callback of [apply]. *)
Definition retained (o : FullOptions) (module : StatsModule.t) : bool :=
  negb (StatsModule.orphan module) &&
  match StatsModule.name module with
  | Some n => truthy n && include o n && negb (exclude o n)
  | None => false
  end.

(** [Object.fromEntries]: later entries overwrite earlier ones. *)
Definition fromEntries (entries : list (string * StatsModule.t)) : ModuleMap :=
  foldl (fun acc e => <[e.1 := e.2]> acc) ∅ entries.

(** The key [[module.id, module]] is stored under. *)
Definition keyOf (module : StatsModule.t) : string :=
  jsString (StatsModule.id module).

(** [modulesById], from [stats.modules] (absent: [?? []]). *)
Definition modulesById (o : FullOptions)
    (modules : option (list StatsModule.t)) : ModuleMap :=
  fromEntries
    (map (fun module => (keyOf module, module))
       (List.filter (retained o) (default [] modules))).

(** How a call of [isCyclic] completes. *)
Inductive Completion :=
  | Timeout                      (* the fuel of the model ran out *)
  | TypeError                    (* [modulesById[currentModule]] is undefined *)
  | Return (paths : option (list string)) (seenModules : gset string).

(** [reason.moduleId ? modulesById[reason.moduleId] : undefined]. *)
Definition reasonModule (modulesById : ModuleMap) (reason : Reason.t)
    : option Property :=
  if truthyId (Reason.moduleId reason)
  then getProperty modulesById (jsString (Reason.moduleId reason))
  else None.

(** [reason.type?.match(/dynamic import|import\(\)/)]. *)
Definition isDynamic (reason : Reason.t) : bool :=
  match Reason.type reason with
  | Some t => re_dynamic t
  | None => false
  end.

(** [normalizePath(module.name) ?? String(module.id)]. *)
Definition displayOf (module : StatsModule.t) : string :=
  nullish (normalizePath (StatsModule.name module)) (keyOf module).

(** The [for (const reason of ...)] loop of [isCyclic]; [self] is the
    recursive call [this.isCyclic(initialModule, _, modulesById, _)].  An
    inherited property has no [id], so [!reasonModule?.id] skips it. *)
Fixpoint isCyclic_loop (o : FullOptions)
    (self : string → gset string → Completion)
    (initialModule currentModule : string) (currentModuleName : option string)
    (modulesById : ModuleMap) (rs : list Reason.t) (seenModules : gset string)
    : Completion :=
  match rs with
  | [] => Return None seenModules
  | reason :: rest =>
    let continue :=
      isCyclic_loop o self initialModule currentModule currentModuleName
        modulesById rest in
    match reasonModule modulesById reason with
    | None => continue seenModules
    | Some (Inherited _) => continue seenModules
    | Some (Own rm) =>
      if negb (truthyId (StatsModule.id rm)) then continue seenModules
      else if allowAsyncCycles o && isDynamic reason then continue seenModules
      else if inObject seenModules (keyOf rm) then
        if strictEq (StatsModule.id rm) initialModule &&
           negb (bool_decide (currentModule = initialModule))
        then Return (Some [displayOf rm;
                           nullish (normalizePath currentModuleName)
                             currentModule]) seenModules
        else continue seenModules
      else
        match self (keyOf rm) seenModules with
        | Return (Some paths) seen' =>
            Return (Some (paths ++ [nullish (normalizePath currentModuleName)
                                      currentModule])%list) seen'
        | Return None seen' => continue seen'
        | TypeError => TypeError
        | Timeout => Timeout
        end
    end
  end.

Fixpoint isCyclic (o : FullOptions) (fuel : nat)
    (initialModule currentModule : string) (modulesById : ModuleMap)
    (seenModules : gset string) : Completion :=
  match fuel with
  | O => Timeout
  | S fuel' =>
    let current := getProperty modulesById currentModule in
    let currentModuleName := propertyName current in
    let seenModules := {[currentModule]} ∪ seenModules in
    match current with
    | None => TypeError
    | Some p =>
      isCyclic_loop o
        (fun k seen => isCyclic o fuel' initialModule k modulesById seen)
        initialModule currentModule currentModuleName modulesById
        (propertyReasons p) seenModules
    end
  end.

(** The call of [apply]: [this.isCyclic(module, module, modulesById)], with
    the default [seenModules = {}]. *)
Definition detect (o : FullOptions) (modulesById : ModuleMap)
    (module : string) : Completion :=
  isCyclic o (S (size modulesById)) module module modulesById ∅.

Definition push_error (c : Compilation) (e : HostError) : Compilation :=
  {| errors := errors c ++ [e]; warnings := warnings c |}.

Definition push_warning (c : Compilation) (e : HostError) : Compilation :=
  {| errors := errors c; warnings := warnings c ++ [e] |}.

(** The body of [if (maybeCyclicalPathsList) { ... }] in [apply]. *)
Definition report (o : FullOptions) (paths : list string)
    (compilation : Compilation) : Compilation :=
  match onDetected o with
  | Some callback =>
    match callback paths compilation with
    | (compilation', Some err) => push_error compilation' (Thrown err)
    | (compilation', None) => compilation'
    end
  | None =>
    let message := BASE_ERROR ++ join " -> " paths in
    if failOnError o then push_error compilation (NewError message)
    else push_warning compilation (NewError message)
  end.

(** One iteration of [for (const module of Object.keys(modulesById))]:
    the compilation it leaves behind, or [None] when the search does not
    return (an exception of [isCyclic] is not caught by [apply]). *)
Definition checkModule (o : FullOptions) (modulesById : ModuleMap)
    (module : string) (compilation : Compilation) : option Compilation :=
  match detect o modulesById module with
  | Return (Some paths) _ => Some (report o paths compilation)
  | Return None _ => Some compilation
  | TypeError => None
  | Timeout => None
  end.

(** ** The dependency graph the search walks *)

(** The module a reason leads the search to, when none of the guards at the
    head of the loop body skips it: the source id is truthy, it names an own
    property of the index, a module with a truthy id, and the reason is not
    a dynamic import while [allowAsyncCycles] is set. *)
Definition followedModule (o : FullOptions) (modulesById : ModuleMap)
    (reason : Reason.t) : option StatsModule.t :=
  match reasonModule modulesById reason with
  | Some (Own rm) =>
    if truthyId (StatsModule.id rm) && negb (allowAsyncCycles o && isDynamic reason)
    then Some rm else None
  | _ => None
  end.

(** The key of that module. *)
Definition followed (o : FullOptions) (modulesById : ModuleMap)
    (reason : Reason.t) : option string :=
  keyOf <$> followedModule o modulesById reason.

(** [modulesById[k].reasons ?? []], empty when [k] is not an own property
    holding a module. *)
Definition reasonsOf (modulesById : ModuleMap) (k : string) : list Reason.t :=
  match modulesById !! k with
  | Some m => default [] (StatsModule.reasons m)
  | None => []
  end.

(** [link a b]: some reason of [a] is followed to [b], that is, [b] imports
    [a].  [edge] leaves out the self-references, which the search never
    follows nor reports. *)
Definition link (o : FullOptions) (modulesById : ModuleMap) (a b : string) : Prop :=
  ∃ reason, reason ∈ reasonsOf modulesById a ∧ followed o modulesById reason = Some b.

Definition edge (o : FullOptions) (modulesById : ModuleMap) (a b : string) : Prop :=
  a ≠ b ∧ link o modulesById a b.

(** [m] lies on a cycle of followed edges. *)
Definition on_cycle (o : FullOptions) (modulesById : ModuleMap) (m : string) : Prop :=
  tc (edge o modulesById) m m.

Definition acyclic (o : FullOptions) (modulesById : ModuleMap) : Prop :=
  ∀ m, ¬ on_cycle o modulesById m.

(** [walk a b]: a link the search can descend along: [b] is not the name of
    an inherited property, which [in] always finds in [seenModules]. *)
Definition walk (o : FullOptions) (modulesById : ModuleMap) (a b : string) : Prop :=
  ∃ reason, reason ∈ reasonsOf modulesById a ∧
            followed o modulesById reason = Some b ∧ isInherited b = false.

(** [closes c init]: a reason of [c], another module than [init], is
    followed to a module whose id is the string [init], the only ids [===]
    equates with [initialModule]. *)
Definition closes (o : FullOptions) (modulesById : ModuleMap)
    (c init : string) : Prop :=
  c ≠ init ∧
  ∃ reason rm, reason ∈ reasonsOf modulesById c ∧
               followedModule o modulesById reason = Some rm ∧
               StatsModule.id rm = IdString init.

(** The cycles the search can find from [m]. *)
Definition reported (o : FullOptions) (modulesById : ModuleMap) (m : string) : Prop :=
  ∃ c, rtc (walk o modulesById) m c ∧ closes o modulesById c m.

(** Every module is stored under the key of its own id, as
    [Object.fromEntries] over [[module.id, module]] pairs guarantees. *)
Definition keyed (modulesById : ModuleMap) : Prop :=
  ∀ k m, modulesById !! k = Some m → keyOf m = k.

(** Every indexed id is a string, and none is the name of a property of
    [Object.prototype]. *)
Definition plain (modulesById : ModuleMap) : Prop :=
  ∀ k m, modulesById !! k = Some m →
         StatsModule.id m = IdString k ∧ isInherited k = false.

(** The display name of the module indexed under [k]. *)
Definition display (modulesById : ModuleMap) (k : string) : string :=
  nullish (normalizePath (modulesById !! k ≫= StatsModule.name)) k.

(** [chain x [k1; ...; kn]]: [x] imports [k1], [k1] imports [k2], ... *)
Fixpoint chain (o : FullOptions) (modulesById : ModuleMap)
    (x : string) (ks : list string) : Prop :=
  match ks with
  | [] => True
  | k :: ks' => edge o modulesById k x ∧ chain o modulesById k ks'
  end.

(** A module all of whose links the search can descend along stay in [S]
    and none of whose reasons closes a cycle back to [init]. *)
Definition closed (o : FullOptions) (modulesById : ModuleMap)
    (S : gset string) (init x : string) : Prop :=
  (∀ y, walk o modulesById x y → y ∈ S) ∧ ¬ closes o modulesById x init.

(** What a returning call [isCyclic init cur _ seen] guarantees. *)
Definition post (o : FullOptions) (modulesById : ModuleMap)
    (init cur : string) (seen : gset string)
    (res : option (list string)) (seen' : gset string) : Prop :=
  {[cur]} ∪ seen ⊆ seen' ∧
  match res with
  | Some p =>
    (∃ ks, p = display modulesById <$> (init :: ks ++ [cur]) ∧
           chain o modulesById init (ks ++ [cur]) ∧
           NoDup ks ∧ (∀ k, k ∈ ks → (k ∉ {[cur]} ∪ seen) ∧ k ∈ seen')) ∧
    (∃ c, rtc (walk o modulesById) cur c ∧ closes o modulesById c init)
  | None =>
    ∀ x, x ∈ seen' → (x ∉ seen) ∨ x = cur → closed o modulesById seen' init x
  end.

(** The shape of every returned path: at least two elements, the first is
    the display name of a module whose id is [init], reached through a
    reason of the module named second (the closing edge). *)
Definition closing (modulesById : ModuleMap) (init : string)
    (p : list string) : Prop :=
  (2 ≤ length p)%nat ∧
  ∃ c rm reason,
    c ≠ init ∧ reason ∈ reasonsOf modulesById c ∧
    reasonModule modulesById reason = Some (Own rm) ∧
    StatsModule.id rm = IdString init ∧
    p !! 0%nat = Some (displayOf rm) ∧ p !! 1%nat = Some (display modulesById c).

(** The keys of the ids carried by the indexed modules. *)
Definition ids (modulesById : ModuleMap) : gset string :=
  list_to_set (keyOf <$> (map_to_list modulesById).*2).

(** The options with [allowAsyncCycles] replaced. *)
Definition with_allowAsyncCycles (b : bool) (o : FullOptions) : FullOptions :=
  {| exclude := exclude o; include := include o; failOnError := failOnError o;
     allowAsyncCycles := b; onDetected := onDetected o |}.

(** [!!module.name]. *)
Definition named (module : StatsModule.t) : bool :=
  match StatsModule.name module with
  | Some n => truthy n
  | None => false
  end.

(** ** The loop of [apply] *)

(** [new Error(BASE_ERROR.concat(paths.join(" -> ")))]. *)
Definition cycleMessage (paths : list string) : HostError :=
  NewError (BASE_ERROR ++ join " -> " paths).

(** [for (const module of Object.keys(modulesById)) { ... }]: [keys] is the
    list [Object.keys] returns, in the order of the engine.  An exception of
    [isCyclic] leaves the loop. *)
Fixpoint checkModules (o : FullOptions) (modulesById : ModuleMap)
    (keys : list string) (compilation : Compilation) : option Compilation :=
  match keys with
  | [] => Some compilation
  | module :: rest =>
    match checkModule o modulesById module compilation with
    | Some compilation' => checkModules o modulesById rest compilation'
    | None => None
    end
  end.

(** The paths the loop reports, in the order of [keys]. *)
Definition cyclePaths (o : FullOptions) (modulesById : ModuleMap)
    (keys : list string) : list (list string) :=
  omap (fun module =>
          match detect o modulesById module with
          | Return (Some paths) _ => Some paths
          | _ => None
          end) keys.

(** ** The [Map]-based implementation ([src/unnamed/part_000], second file)

    There [modulesById] is a [Map] keyed by the raw [module.id] and
    [seenModules] is a [Set]: keys are compared as values, so a number is
    not the string that prints it, and nothing is inherited.  The search
    takes ids as they are, and a path lists names and, where a name is
    missing, raw ids. *)

#[global] Instance JsId_eq_dec : EqDecision JsId := ltac:(solve_decision).

Definition JsId_encode (i : JsId) : string + (N + bool) :=
  match i with
  | IdString s => inl s
  | IdNumber n => inr (inl n)
  | IdNull => inr (inr true)
  | IdUndefined => inr (inr false)
  end.

Definition JsId_decode (x : string + (N + bool)) : JsId :=
  match x with
  | inl s => IdString s
  | inr (inl n) => IdNumber n
  | inr (inr true) => IdNull
  | inr (inr false) => IdUndefined
  end.

#[global] Instance JsId_countable : Countable JsId :=
  inj_countable' JsId_encode JsId_decode
    (fun i => match i with
              | IdString _ => eq_refl
              | IdNumber _ => eq_refl
              | IdNull => eq_refl
              | IdUndefined => eq_refl
              end).

Module MapBased.

(** The entries of the [Map]. *)
Abbreviation ModuleMap := (gmap JsId StatsModule.t).

(** [onDetected] receives the path as the search built it. *)
Definition Callback := list JsId → Compilation → Compilation * option string.

(** How a call of [isCyclic] completes; nothing in it throws. *)
Inductive Completion :=
  | Timeout                      (* the fuel of the model ran out *)
  | Return (paths : option (list JsId)) (seenModules : gset JsId).

(** [modulesById], filled by [modulesById.set(module.id, module)] for each
    module that passes the filter, in the order of [stats.modules]. *)
Definition modulesById (o : FullOptions)
    (modules : option (list StatsModule.t)) : ModuleMap :=
  foldl (fun acc module =>
           if retained o module then <[StatsModule.id module := module]> acc
           else acc)
    ∅ (default [] modules).

(** [modulesById.keys()]: the keys in the order of their first insertion. *)
Definition keys (o : FullOptions)
    (modules : option (list StatsModule.t)) : list JsId :=
  foldl (fun acc module =>
           if retained o module
           then if bool_decide (StatsModule.id module ∈ acc) then acc
                else (acc ++ [StatsModule.id module])%list
           else acc)
    [] (default [] modules).

(** [normalizePath(name) ?? id]. *)
Definition nameOr (name : option string) (i : JsId) : JsId :=
  match normalizePath name with
  | Some s => IdString s
  | None => i
  end.

(** The [for (const reason of ...)] loop of [isCyclic]; [self] is the
    recursive call [this.isCyclic(initialModule, _, modulesById, _)]. *)
Fixpoint isCyclic_loop (o : FullOptions)
    (self : JsId → gset JsId → Completion)
    (initialModule currentModule : JsId) (currentModuleName : option string)
    (modulesById : ModuleMap) (rs : list Reason.t) (seenModules : gset JsId)
    : Completion :=
  match rs with
  | [] => Return None seenModules
  | reason :: rest =>
    let continue :=
      isCyclic_loop o self initialModule currentModule currentModuleName
        modulesById rest in
    let reasonModuleId := Reason.moduleId reason in
    if negb (truthyId reasonModuleId) ||
       negb (bool_decide (is_Some (modulesById !! reasonModuleId)))
    then continue seenModules
    else if allowAsyncCycles o && isDynamic reason then continue seenModules
    else if bool_decide (reasonModuleId = initialModule) &&
            negb (bool_decide (currentModule = initialModule))
    then Return (Some [nameOr (modulesById !! reasonModuleId ≫= StatsModule.name)
                         reasonModuleId;
                       nameOr currentModuleName currentModule]) seenModules
    else
      match self reasonModuleId seenModules with
      | Return (Some cyclePath) seen' =>
          Return (Some (cyclePath ++ [nameOr currentModuleName currentModule])%list)
            seen'
      | Return None seen' => continue seen'
      | Timeout => Timeout
      end
  end.

(** A visited module returns at once, and an absent module has no reasons
    ([?.reasons ?? []]). *)
Fixpoint isCyclic (o : FullOptions) (fuel : nat)
    (initialModule currentModule : JsId) (modulesById : ModuleMap)
    (seenModules : gset JsId) : Completion :=
  match fuel with
  | O => Timeout
  | S fuel' =>
    if bool_decide (currentModule ∈ seenModules) then Return None seenModules
    else
      let seenModules := {[currentModule]} ∪ seenModules in
      let currentModuleName := modulesById !! currentModule ≫= StatsModule.name in
      isCyclic_loop o
        (fun k seen => isCyclic o fuel' initialModule k modulesById seen)
        initialModule currentModule currentModuleName modulesById
        (default [] (modulesById !! currentModule ≫= StatsModule.reasons))
        seenModules
  end.

(** [this.isCyclic(module, module, modulesById, new Set())]; the fuel is
    never exhausted ([map_isCyclic_no_timeout]). *)
Definition detect (o : FullOptions) (modulesById : ModuleMap)
    (module : JsId) : Completion :=
  isCyclic o (S (S (size modulesById))) module module modulesById ∅.

(** What [Array.prototype.join] makes of an element: [null] and
    [undefined] give the empty string. *)
Definition joinItem (i : JsId) : string :=
  match i with
  | IdNull => ""
  | IdUndefined => ""
  | _ => jsString i
  end.

(** [reportCycle(paths, compilation)]. *)
Definition reportCycle (o : FullOptions) (callback : option Callback)
    (paths : list JsId) (compilation : Compilation) : Compilation :=
  match callback with
  | Some cb =>
    match cb paths compilation with
    | (compilation', Some err) => push_error compilation' (Thrown err)
    | (compilation', None) => compilation'
    end
  | None =>
    let message := BASE_ERROR ++ join " -> " (joinItem <$> paths) in
    if failOnError o then push_error compilation (NewError message)
    else push_warning compilation (NewError message)
  end.

(** [for (const module of modulesById.keys())
       { if (!checkedModules.has(module)) ... }]. *)
Fixpoint apply_loop (o : FullOptions) (callback : option Callback)
    (modulesById : ModuleMap) (keys : list JsId) (checkedModules : gset JsId)
    (compilation : Compilation) : option Compilation :=
  match keys with
  | [] => Some compilation
  | module :: rest =>
    if bool_decide (module ∈ checkedModules)
    then apply_loop o callback modulesById rest checkedModules compilation
    else
      match detect o modulesById module with
      | Return (Some paths) _ =>
          apply_loop o callback modulesById rest ({[module]} ∪ checkedModules)
            (reportCycle o callback paths compilation)
      | Return None _ =>
          apply_loop o callback modulesById rest checkedModules compilation
      | Timeout => None
      end
  end.

(** For comparison: the same loop with the [checkedModules] test left
    out. *)
Fixpoint unguarded_loop (o : FullOptions) (callback : option Callback)
    (modulesById : ModuleMap) (keys : list JsId)
    (compilation : Compilation) : option Compilation :=
  match keys with
  | [] => Some compilation
  | module :: rest =>
    match detect o modulesById module with
    | Return (Some paths) _ =>
        unguarded_loop o callback modulesById rest
          (reportCycle o callback paths compilation)
    | Return None _ => unguarded_loop o callback modulesById rest compilation
    | Timeout => None
    end
  end.

End MapBased.

(** A result of the search of [src/index.ts], read as a result of the
    [Map]-based search: a key is the string id it prints. *)
Definition asMapResult (paths : option (list string)) (seenModules : gset string)
    : MapBased.Completion :=
  MapBased.Return (fmap (M:=list) IdString <$> paths) (set_map IdString seenModules).

(** The ids of the retained modules are strings that do not name a property
    of [Object.prototype], and the truthy source ids of their reasons are
    strings. *)
Definition stringIds (o : FullOptions) (modules : option (list StatsModule.t)) : Prop :=
  ∀ x, x ∈ default [] modules → retained o x = true →
       (∃ s, StatsModule.id x = IdString s ∧ isInherited s = false) ∧
       ∀ r, r ∈ default [] (StatsModule.reasons x) →
            truthyId (Reason.moduleId r) = true →
            ∃ s, Reason.moduleId r = IdString s.

(** ** Test data *)

Definition static (k : string) : Reason.t :=
  Reason.Build (IdString k) (Some "esm import").
Definition dynamic (k : string) : Reason.t :=
  Reason.Build (IdString k) (Some "dynamic import").
Definition entry : Reason.t := Reason.Build IdUndefined (Some "entry").

Definition mk (k : string) (rs : list Reason.t) : StatsModule.t :=
  StatsModule.Build (IdString k) (Some ("./" ++ k)) false (Some rs).

(** A module with a numeric id, as production builds emit them. *)
Definition mkn (n : N) (nm : string) (rs : list Reason.t) : StatsModule.t :=
  StatsModule.Build (IdNumber n) (Some ("./" ++ nm)) false (Some rs).
Definition staticn (n : N) : Reason.t :=
  Reason.Build (IdNumber n) (Some "esm import").
Definition dynamicn (n : N) : Reason.t :=
  Reason.Build (IdNumber n) (Some "dynamic import").

(** b.js reaches a.js through [import("./a.js")] only. *)
Definition async_cycle : option (list StatsModule.t) :=
  Some [mk "a.js" [entry; dynamic "b.js"]; mk "b.js" [static "a.js"]].

(** a.js lists itself among its reasons. *)
Definition self_loop : option (list StatsModule.t) :=
  Some [mk "a.js" [entry; static "a.js"]].

(** A module without a name between a.js and b.js. *)
Definition nameless_cycle : option (list StatsModule.t) :=
  Some [mk "a.js" [static "b.js"];
        StatsModule.Build (IdString "n") None false (Some [static "a.js"]);
        mk "b.js" [static "n"]].

Definition throwing : Callback := fun _ c => (c, Some "boom").

Definition defaults : FullOptions :=
  constructor {| opt_exclude := None; opt_include := None;
                 opt_failOnError := None; opt_allowAsyncCycles := None;
                 opt_onDetected := None |}.

Definition with_callback (cb : Callback) (o : FullOptions) : FullOptions :=
  {| exclude := exclude o; include := include o; failOnError := failOnError o;
     allowAsyncCycles := allowAsyncCycles o; onDetected := Some cb |}.

Definition empty_compilation : Compilation := {| errors := []; warnings := [] |}.

(** a.js imports b.js and b.js imports a.js. *)
Definition two_cycle : option (list StatsModule.t) :=
  Some [mk "a.js" [entry; static "b.js"]; mk "b.js" [static "a.js"]].

(** The same two modules under the numeric ids 670 and 899. *)
Definition numeric_cycle : option (list StatsModule.t) :=
  Some [mkn 670 "a.js" [entry; staticn 899]; mkn 899 "b.js" [staticn 670]].

(** 899 reaches 670 through [import()] only. *)
Definition numeric_async_cycle : option (list StatsModule.t) :=
  Some [mkn 670 "a.js" [entry; dynamicn 899]; mkn 899 "b.js" [staticn 670]].

(** a.js and a module whose id is [constructor] import each other. *)
Definition prototype_cycle : option (list StatsModule.t) :=
  Some [mk "a.js" [static "constructor"]; mk "constructor" [static "a.js"]].

(** a.js imports b.js, b.js imports c.js, c.js imports a.js; d.js stands
    apart. *)
Definition three_cycle : option (list StatsModule.t) :=
  Some [mk "a.js" [static "c.js"]; mk "b.js" [static "a.js"];
        mk "c.js" [static "b.js"]; mk "d.js" [entry]].

(** a.js imports b.js and c.js, and each of them imports a.js. *)
Definition star_cycle : option (list StatsModule.t) :=
  Some [mk "a.js" [static "b.js"; static "c.js"]; mk "b.js" [static "a.js"];
        mk "c.js" [static "a.js"]].

(** Two modules with the id a.js: the later one has no reasons. *)
Definition duplicate_ids : option (list StatsModule.t) :=
  Some [mk "a.js" [static "b.js"]; mk "b.js" [static "a.js"]; mk "a.js" []].

(** Options that exclude c.js. *)
Definition without_c : FullOptions :=
  {| exclude := fun n => includes "c.js" n; include := re_any;
     failOnError := false; allowAsyncCycles := false; onDetected := None |}.

Example detect_two_cycle :
  detect defaults (modulesById defaults two_cycle) "a.js"
  = Return (Some ["a.js"; "b.js"; "a.js"]) {["a.js"; "b.js"]}.
Proof. vm_compute. reflexivity. Qed.

Example detect_numeric_cycle :
  detect defaults (modulesById defaults numeric_cycle) "670"
  = Return None {["670"; "899"]} ∧
  detect defaults (modulesById defaults numeric_cycle) "899"
  = Return None {["670"; "899"]}.
Proof. vm_compute. done. Qed.

Example detect_prototype_cycle :
  detect defaults (modulesById defaults prototype_cycle) "a.js"
  = Return None {["a.js"]} ∧
  detect defaults (modulesById defaults prototype_cycle) "constructor"
  = Return (Some ["constructor"; "a.js"; "constructor"]) {["a.js"; "constructor"]}.
Proof. vm_compute. done. Qed.

Example detect_inherited_start :
  detect defaults (modulesById defaults two_cycle) "toString"
  = Return None {["toString"]} ∧
  detect defaults (modulesById defaults two_cycle) "x.js" = TypeError.
Proof. vm_compute. done. Qed.

(** ** The loop body, case by case *)

Section Search.
Context (o : FullOptions) (idx : ModuleMap).
Implicit Types (self : string → gset string → Completion).
Implicit Types (seen : gset string) (rs : list Reason.t).

Lemma getProperty_Own k m : getProperty idx k = Some (Own m) ↔ idx !! k = Some m.
Proof.
  unfold getProperty. destruct (idx !! k) as [m'|].
  - split; congruence.
  - split; [|done]. by destruct (inherited k).
Qed.

Lemma getProperty_None k :
  getProperty idx k = None ↔ idx !! k = None ∧ isInherited k = false.
Proof.
  unfold getProperty, isInherited. destruct (idx !! k) as [m'|].
  - split; [done|]. by intros [? _].
  - destruct (inherited k); simpl; split; try done. by intros [_ ?].
Qed.

Lemma getProperty_Inherited k nm :
  getProperty idx k = Some (Inherited nm) →
  idx !! k = None ∧ isInherited k = true.
Proof.
  unfold getProperty, isInherited. destruct (idx !! k) as [m'|]; [done|].
  by destruct (inherited k).
Qed.

Lemma followedModule_Some reason rm :
  followedModule o idx reason = Some rm ↔
  reasonModule idx reason = Some (Own rm) ∧ truthyId (StatsModule.id rm) = true ∧
  (allowAsyncCycles o && isDynamic reason) = false.
Proof.
  unfold followedModule. split.
  - destruct (reasonModule idx reason) as [[rm'|]|]; [|done|done].
    destruct (truthyId (StatsModule.id rm')) eqn:Ht; [|done].
    destruct (allowAsyncCycles o && isDynamic reason) eqn:Hd; [done|].
    simpl. by intros [= <-].
  - intros (-> & -> & ->). done.
Qed.

Lemma followedModule_None reason :
  followedModule o idx reason = None ↔
  match reasonModule idx reason with
  | Some (Own rm) => truthyId (StatsModule.id rm) = false ∨
                     (allowAsyncCycles o && isDynamic reason) = true
  | _ => True
  end.
Proof.
  unfold followedModule. destruct (reasonModule idx reason) as [[rm|]|]; [|done..].
  destruct (truthyId (StatsModule.id rm)), (allowAsyncCycles o && isDynamic reason);
    simpl; intuition congruence.
Qed.

Lemma followed_Some reason k :
  followed o idx reason = Some k ↔
  ∃ rm, followedModule o idx reason = Some rm ∧ keyOf rm = k.
Proof.
  unfold followed. destruct (followedModule o idx reason) as [rm|]; simpl.
  - split; [intros [= <-]; eauto|]. by intros (rm' & [= <-] & <-).
  - split; [done|]. by intros (? & ? & _).
Qed.

Lemma followed_None reason :
  followed o idx reason = None ↔ followedModule o idx reason = None.
Proof. unfold followed. by destruct (followedModule o idx reason). Qed.

Lemma reasonModule_lookup reason rm :
  reasonModule idx reason = Some (Own rm) → ∃ k, idx !! k = Some rm.
Proof.
  unfold reasonModule. destruct (truthyId (Reason.moduleId reason)); [|done].
  intros H%getProperty_Own. eauto.
Qed.

Lemma followedModule_indexed reason rm :
  keyed idx → followedModule o idx reason = Some rm → idx !! keyOf rm = Some rm.
Proof.
  intros Hk (Hrm & _)%followedModule_Some.
  destruct (reasonModule_lookup _ _ Hrm) as [k Hl].
  by rewrite (Hk _ _ Hl).
Qed.

Lemma followed_indexed reason k :
  keyed idx → followed o idx reason = Some k → is_Some (idx !! k).
Proof.
  intros Hk (rm & Hrm & <-)%followed_Some.
  rewrite (followedModule_indexed _ _ Hk Hrm). eauto.
Qed.

Lemma displayOf_display rm :
  idx !! keyOf rm = Some rm → displayOf rm = display idx (keyOf rm).
Proof. intros H. unfold displayOf, display. by rewrite H. Qed.

Lemma loop_skip self init cur nm reason rs seen :
  followedModule o idx reason = None →
  isCyclic_loop o self init cur nm idx (reason :: rs) seen
  = isCyclic_loop o self init cur nm idx rs seen.
Proof.
  intros H%followedModule_None. simpl.
  destruct (reasonModule idx reason) as [[rm|]|]; [|done..].
  destruct H as [-> | ->]; [done|].
  by destruct (truthyId (StatsModule.id rm)).
Qed.

Lemma loop_seen self init cur nm reason rs seen rm :
  followedModule o idx reason = Some rm → inObject seen (keyOf rm) = true →
  isCyclic_loop o self init cur nm idx (reason :: rs) seen
  = if strictEq (StatsModule.id rm) init && negb (bool_decide (cur = init))
    then Return (Some [displayOf rm; nullish (normalizePath nm) cur]) seen
    else isCyclic_loop o self init cur nm idx rs seen.
Proof.
  intros (Hrm & Ht & Hd)%followedModule_Some Hin.
  simpl. by rewrite Hrm, Ht, Hd, Hin.
Qed.

Lemma loop_fresh self init cur nm reason rs seen rm :
  followedModule o idx reason = Some rm → inObject seen (keyOf rm) = false →
  isCyclic_loop o self init cur nm idx (reason :: rs) seen
  = match self (keyOf rm) seen with
    | Return (Some paths) seen' =>
        Return (Some (paths ++ [nullish (normalizePath nm) cur])%list) seen'
    | Return None seen' => isCyclic_loop o self init cur nm idx rs seen'
    | TypeError => TypeError
    | Timeout => Timeout
    end.
Proof.
  intros (Hrm & Ht & Hd)%followedModule_Some Hin.
  simpl. by rewrite Hrm, Ht, Hd, Hin.
Qed.

Lemma inObject_true seen k :
  inObject seen k = true ↔ k ∈ seen ∨ isInherited k = true.
Proof. unfold inObject. rewrite orb_true_iff, bool_decide_eq_true. done. Qed.

Lemma inObject_false seen k :
  inObject seen k = false ↔ (k ∉ seen) ∧ isInherited k = false.
Proof. unfold inObject. rewrite orb_false_iff, bool_decide_eq_false. done. Qed.

Lemma strictEq_true i s : strictEq i s = true ↔ i = IdString s.
Proof.
  destruct i; simpl; try (split; [done|congruence]).
  rewrite bool_decide_eq_true. split; congruence.
Qed.

(** ** Chains of edges *)

Lemma chain_app x l1 l2 :
  chain o idx x (l1 ++ l2) ↔ chain o idx x l1 ∧ chain o idx (List.last l1 x) l2.
Proof.
  revert x. induction l1 as [|a l1 IH]; intros x.
  - simpl. tauto.
  - change ((a :: l1) ++ l2)%list with (a :: (l1 ++ l2))%list.
    cbn [chain]. rewrite IH.
    replace (List.last (a :: l1) x) with (List.last l1 a); [tauto|].
    clear. revert a x. induction l1 as [|b l1 IH]; intros a x; [done|].
    change (List.last (a :: b :: l1) x) with (List.last (b :: l1) x).
    by rewrite <- !IH.
Qed.

Lemma chain_tc x ks y :
  chain o idx x (ks ++ [y]) → tc (edge o idx) y x.
Proof.
  revert x. induction ks as [|k ks IH]; intros x.
  - simpl. intros [He _]. by apply tc_once.
  - change ((k :: ks) ++ [y])%list with (k :: (ks ++ [y]))%list.
    cbn [chain]. intros [He Hc]. eapply tc_r; [by apply IH|done].
Qed.

Lemma closed_mono S S' init x :
  S ⊆ S' → closed o idx S init x → closed o idx S' init x.
Proof. intros HS [Hc Hn]. split; [|done]. intros y Hy. apply HS. auto. Qed.

(** ** The invariant of the loop *)

Lemma loop_post self init cur nm :
  keyed idx →
  (∀ k s res s', init ∈ s → self k s = Return res s' →
                 post o idx init k s res s') →
  nullish (normalizePath nm) cur = display idx cur →
  ∀ rs seen res seen',
    (∀ r, r ∈ rs → r ∈ reasonsOf idx cur) →
    cur ∈ seen → init ∈ seen →
    isCyclic_loop o self init cur nm idx rs seen = Return res seen' →
    seen ⊆ seen' ∧
    match res with
    | Some p =>
      (∃ ks, p = display idx <$> (init :: ks ++ [cur]) ∧
             chain o idx init (ks ++ [cur]) ∧
             NoDup ks ∧ (∀ k, k ∈ ks → (k ∉ seen) ∧ k ∈ seen')) ∧
      (∃ c, rtc (walk o idx) cur c ∧ closes o idx c init)
    | None =>
      (∀ x, x ∈ seen' → (x ∉ seen) → closed o idx seen' init x) ∧
      (∀ r rm, r ∈ rs → followedModule o idx r = Some rm →
               (isInherited (keyOf rm) = false → keyOf rm ∈ seen') ∧
               (StatsModule.id rm = IdString init → cur = init))
    end.
Proof.
  intros Hkeyed Hself Hnm rs.
  induction rs as [|r rs IH]; intros seen res seen' Hrs Hcur Hinit Hrun.
  { simpl in Hrun. injection Hrun as <- <-. split; [done|].
    split; [done|]. intros r rm Hr. by apply elem_of_nil in Hr. }
  assert (Hrs' : ∀ r', r' ∈ rs → r' ∈ reasonsOf idx cur).
  { intros r' Hr'. apply Hrs. by right. }
  assert (Hr : r ∈ reasonsOf idx cur) by (apply Hrs; left).
  destruct (followedModule o idx r) as [rm|] eqn:Hf.
  2:{ rewrite loop_skip in Hrun by done.
      destruct (IH _ _ _ Hrs' Hcur Hinit Hrun) as [Hsub Hres].
      split; [done|]. destruct res as [p|]; [done|].
      destruct Hres as [Hcl Hall]. split; [done|].
      intros r' rm' [->|Hr']%elem_of_cons Hy; [congruence|eauto]. }
  pose proof (followedModule_indexed _ _ Hkeyed Hf) as Hown.
  assert (Hfk : followed o idx r = Some (keyOf rm)).
  { apply followed_Some. eauto. }
  destruct (inObject seen (keyOf rm)) eqn:Hin.
  - rewrite (loop_seen _ _ _ _ _ _ _ rm) in Hrun by done.
    destruct (strictEq (StatsModule.id rm) init && negb (bool_decide (cur = init)))
      eqn:Hclose.
    + apply andb_true_iff in Hclose as [Hid%strictEq_true Hci%negb_true_iff].
      apply bool_decide_eq_false in Hci.
      assert (Hk : keyOf rm = init) by (unfold keyOf; by rewrite Hid).
      injection Hrun as <- <-. split; [done|]. split.
      * exists []. split; [|split; [|split; [constructor|]]].
        -- rewrite (displayOf_display _ Hown), Hk. simpl. by rewrite Hnm.
        -- simpl. split; [|done]. split; [done|]. exists r. by rewrite <- Hk.
        -- intros k Hk'. by apply elem_of_nil in Hk'.
      * exists cur. split; [done|]. split; [done|]. by exists r, rm.
    + destruct (IH _ _ _ Hrs' Hcur Hinit Hrun) as [Hsub Hres].
      split; [done|]. destruct res as [p|]; [done|].
      destruct Hres as [Hcl Hall]. split; [done|].
      intros r' rm' [->|Hr']%elem_of_cons Hy; [|eauto].
      assert (rm' = rm) as -> by congruence. split.
      * intros Hni. apply inObject_true in Hin as [?|?]; [set_solver|congruence].
      * intros Hid%strictEq_true. rewrite Hid in Hclose. simpl in Hclose.
        by apply negb_false_iff, bool_decide_eq_true in Hclose.
  - apply inObject_false in Hin as [Hk Hni].
    rewrite (loop_fresh _ _ _ _ _ _ _ rm) in Hrun
      by (done || by apply inObject_false).
    assert (Hwalk : walk o idx cur (keyOf rm)) by (by exists r).
    destruct (self (keyOf rm) seen) as [| |[p'|] s'] eqn:Hcall; try discriminate.
    + injection Hrun as <- <-.
      destruct (Hself _ _ _ _ Hinit Hcall)
        as [Hsub [(ks & -> & Hch & Hnd & Hks) (c & Hrc & Hc)]].
      split; [set_solver|]. split.
      * exists (ks ++ [keyOf rm])%list. split; [|split; [|split]].
        -- rewrite Hnm. rewrite !fmap_cons, !fmap_app. simpl. done.
        -- apply chain_app. split; [done|].
           rewrite List.last_last. simpl. split; [|done].
           split; [set_solver|]. by exists r.
        -- apply NoDup_app. split; [done|]. split; [|apply NoDup_singleton].
           intros x Hx Hx'. apply list_elem_of_singleton in Hx'. subst x.
           destruct (Hks _ Hx). set_solver.
        -- intros x [Hx| ->%list_elem_of_singleton]%elem_of_app.
           ++ destruct (Hks _ Hx). set_solver.
           ++ set_solver.
      * exists c. split; [by eapply rtc_l|done].
    + destruct (Hself _ _ _ _ Hinit Hcall) as [Hsub Hcl0].
      assert (Hcur' : cur ∈ s') by set_solver.
      assert (Hinit' : init ∈ s') by set_solver.
      destruct (IH _ _ _ Hrs' Hcur' Hinit' Hrun) as [Hsub' Hres].
      split; [set_solver|]. destruct res as [p|].
      * destruct Hres as [(ks & -> & Hch & Hnd & Hks) Hrep].
        split; [|done]. exists ks. repeat split; try done.
        -- match goal with Hin : _ ∈ ks |- _ => destruct (Hks _ Hin) end. set_solver.
        -- match goal with Hin : _ ∈ ks |- _ => by destruct (Hks _ Hin) end.
      * destruct Hres as [Hcl Hall]. split.
        -- intros x Hx Hnot. destruct (decide (x ∈ s')) as [Hxs|Hxs].
           ++ eapply closed_mono; [done|]. apply Hcl0; [done|]. by left.
           ++ by apply Hcl.
        -- intros r' rm' [->|Hr']%elem_of_cons Hy; [|eauto].
           assert (rm' = rm) as -> by congruence.
           split; [set_solver|]. intros Hid. exfalso. apply Hk.
           unfold keyOf. by rewrite Hid.
Qed.

(** ** The invariant of a call *)

Lemma isCyclic_post fuel :
  keyed idx →
  ∀ init cur seen res seen',
    init ∈ {[cur]} ∪ seen →
    isCyclic o fuel init cur idx seen = Return res seen' →
    post o idx init cur seen res seen'.
Proof.
  intros Hkeyed. induction fuel as [|fuel IH]; intros init cur seen res seen' Hinit Hrun.
  { discriminate. }
  cbn [isCyclic] in Hrun.
  destruct (getProperty idx cur) as [[cm|nm]|] eqn:Hcm; [| |discriminate].
  - apply getProperty_Own in Hcm.
    assert (Hrs : propertyReasons (Own cm) = reasonsOf idx cur).
    { unfold reasonsOf. by rewrite Hcm. }
    rewrite Hrs in Hrun.
    eapply loop_post in Hrun as [Hsub Hres]; try done.
    + split; [done|]. destruct res as [p|].
      * destruct Hres as [(ks & -> & Hch & Hnd & Hks) Hrep]. split; [|done].
        exists ks. eauto.
      * destruct Hres as [Hcl Hall].
        assert (Hcurcl : closed o idx seen' init cur).
        { split.
          - intros y (r & Hr & (rm & Hf & <-)%followed_Some & Hni).
            by apply (Hall _ _ Hr Hf).
          - intros [Hne (r & rm & Hr & Hf & Hid)]. by apply Hne, (Hall _ _ Hr Hf). }
        intros x Hx [Hnot| ->]; [|done].
        destruct (decide (x = cur)) as [->|Hne]; [done|].
        apply Hcl; [done|]. set_solver.
    + intros k s res' s' Hs Hcall. apply IH; [|done]. set_solver.
    + unfold display. by rewrite Hcm.
    + set_solver.
  - apply getProperty_Inherited in Hcm as [Hnone _].
    simpl in Hrun. injection Hrun as <- <-. split; [done|].
    intros x Hx Hor.
    assert (x = cur) as -> by (destruct Hor as [?|?]; [set_solver|done]).
    assert (Hno : reasonsOf idx cur = []) by (unfold reasonsOf; by rewrite Hnone).
    split.
    + intros y (r & Hr & _). rewrite Hno in Hr. by apply elem_of_nil in Hr.
    + intros [_ (r & rm & Hr & _)]. rewrite Hno in Hr. by apply elem_of_nil in Hr.
Qed.

(** ** The visited set only grows *)

Lemma loop_seen_mono self init cur nm :
  (∀ k s res s', self k s = Return res s' → s ⊆ s') →
  ∀ rs seen res seen',
    isCyclic_loop o self init cur nm idx rs seen = Return res seen' →
    seen ⊆ seen'.
Proof.
  intros Hself rs. induction rs as [|r rs IH]; intros seen res seen' Hrun.
  { by injection Hrun as <- <-. }
  destruct (followedModule o idx r) as [rm|] eqn:Hf.
  2:{ rewrite loop_skip in Hrun by done. eauto. }
  destruct (inObject seen (keyOf rm)) eqn:Hin.
  - rewrite (loop_seen _ _ _ _ _ _ _ rm) in Hrun by done.
    destruct (strictEq (StatsModule.id rm) init && negb (bool_decide (cur = init)));
      [|eauto].
    by injection Hrun as <- <-.
  - rewrite (loop_fresh _ _ _ _ _ _ _ rm) in Hrun by done.
    destruct (self (keyOf rm) seen) as [| |[p'|] s'] eqn:Hcall; try discriminate.
    + injection Hrun as <- <-. eauto.
    + etrans; [by eapply Hself|]. eauto.
Qed.

Lemma isCyclic_seen_mono fuel init cur seen res seen' :
  isCyclic o fuel init cur idx seen = Return res seen' →
  {[cur]} ∪ seen ⊆ seen'.
Proof.
  revert init cur seen res seen'.
  induction fuel as [|fuel IH]; intros init cur seen res seen' Hrun; [done|].
  cbn [isCyclic] in Hrun. destruct (getProperty idx cur) as [p|]; [|done].
  eapply loop_seen_mono in Hrun; [done|].
  intros k s res' s' Hcall. apply IH in Hcall. set_solver.
Qed.

(** ** Termination: the fuel is never exhausted *)

Lemma followedModule_ids reason rm :
  followedModule o idx reason = Some rm → keyOf rm ∈ ids idx.
Proof.
  intros (Hrm & _)%followedModule_Some.
  destruct (reasonModule_lookup _ _ Hrm) as [k Hl].
  unfold ids. apply elem_of_list_to_set, list_elem_of_fmap.
  exists rm. split; [done|]. apply list_elem_of_fmap.
  exists (k, rm). split; [done|]. by apply elem_of_map_to_list.
Qed.

Lemma size_ids : (size (ids idx) ≤ size idx)%nat.
Proof.
  unfold ids. rewrite <- (length_map_to_list idx).
  generalize (map_to_list idx). intros l.
  induction l as [|x l IH].
  - rewrite !fmap_nil, list_to_set_nil, size_empty. done.
  - rewrite !fmap_cons, list_to_set_cons, size_union_alt, size_singleton.
    cbn [length]. etrans; [|apply le_n_S, IH].
    apply le_n_S, subseteq_size. set_solver.
Qed.

Lemma loop_no_timeout self init cur nm n :
  (∀ k s, k ∈ ids idx → k ∉ s → (size (ids idx ∖ s) ≤ n)%nat →
          self k s ≠ Timeout) →
  (∀ k s res s', self k s = Return res s' → s ⊆ s') →
  ∀ rs seen,
    (size (ids idx ∖ seen) ≤ n)%nat →
    isCyclic_loop o self init cur nm idx rs seen ≠ Timeout.
Proof.
  intros Hself Hmono rs. induction rs as [|r rs IH]; intros seen Hsize; [done|].
  destruct (followedModule o idx r) as [rm|] eqn:Hf.
  2:{ rewrite loop_skip by done. eauto. }
  destruct (inObject seen (keyOf rm)) eqn:Hin.
  - rewrite (loop_seen _ _ _ _ _ _ _ rm) by done.
    destruct (strictEq (StatsModule.id rm) init && negb (bool_decide (cur = init)));
      [done|eauto].
  - rewrite (loop_fresh _ _ _ _ _ _ _ rm) by done.
    apply inObject_false in Hin as [Hk _].
    pose proof (followedModule_ids _ _ Hf) as Hids.
    destruct (self (keyOf rm) seen) as [| |[p'|] s'] eqn:Hcall; try done.
    + by apply Hself in Hcall.
    + apply IH. etrans; [|exact Hsize].
      apply subseteq_size. apply Hmono in Hcall. set_solver.
Qed.

Lemma isCyclic_no_timeout fuel :
  ∀ init cur seen,
    (size (ids idx ∖ ({[cur]} ∪ seen)) < fuel)%nat →
    isCyclic o fuel init cur idx seen ≠ Timeout.
Proof.
  induction fuel as [|fuel IH]; intros init cur seen Hsize; [lia|].
  cbn [isCyclic]. destruct (getProperty idx cur) as [p|]; [|done].
  apply (loop_no_timeout _ _ _ _ fuel).
  - intros k s Hk Hs Hsz. apply IH.
    eapply Nat.lt_le_trans; [|exact Hsz].
    apply subset_size. set_solver.
  - intros k s res s' Hcall. apply isCyclic_seen_mono in Hcall. set_solver.
  - lia.
Qed.

(** ** No access to an absent module *)

Lemma loop_no_TypeError self init cur nm :
  keyed idx →
  (∀ k s, is_Some (idx !! k) → self k s ≠ TypeError) →
  ∀ rs seen, isCyclic_loop o self init cur nm idx rs seen ≠ TypeError.
Proof.
  intros Hkeyed Hself rs. induction rs as [|r rs IH]; intros seen; [done|].
  destruct (followedModule o idx r) as [rm|] eqn:Hf.
  2:{ rewrite loop_skip by done. eauto. }
  destruct (inObject seen (keyOf rm)) eqn:Hin.
  - rewrite (loop_seen _ _ _ _ _ _ _ rm) by done.
    destruct (strictEq (StatsModule.id rm) init && negb (bool_decide (cur = init)));
      [done|eauto].
  - rewrite (loop_fresh _ _ _ _ _ _ _ rm) by done.
    pose proof (followedModule_indexed _ _ Hkeyed Hf) as Hidx.
    destruct (self (keyOf rm) seen) as [| |[p'|] s'] eqn:Hcall; try done.
    apply Hself in Hcall; [done|eauto].
Qed.

Lemma isCyclic_no_TypeError fuel :
  keyed idx →
  ∀ init cur seen,
    is_Some (getProperty idx cur) → isCyclic o fuel init cur idx seen ≠ TypeError.
Proof.
  intros Hkeyed. induction fuel as [|fuel IH]; intros init cur seen [p Hp]; [done|].
  cbn [isCyclic]. rewrite Hp. apply loop_no_TypeError; [done|].
  intros k s [m Hk]. apply IH. exists (Own m). by apply getProperty_Own.
Qed.

Lemma detect_no_timeout m : detect o idx m ≠ Timeout.
Proof.
  apply isCyclic_no_timeout. apply Nat.lt_succ_r.
  etrans; [|apply size_ids]. apply subseteq_size. set_solver.
Qed.

Lemma detect_returns m :
  keyed idx → is_Some (idx !! m) →
  ∃ res seen', detect o idx m = Return res seen'.
Proof.
  intros Hkeyed [x Hm].
  assert (HT : detect o idx m ≠ TypeError).
  { apply isCyclic_no_TypeError; [done|]. exists (Own x). by apply getProperty_Own. }
  pose proof (detect_no_timeout m) as HO.
  destruct (detect o idx m) as [| |res s]; [done|done|eauto].
Qed.

Lemma detect_start m p seen' :
  detect o idx m = Return (Some p) seen' → is_Some (idx !! m).
Proof.
  unfold detect. cbn [isCyclic].
  destruct (getProperty idx m) as [[cm|nm]|] eqn:Hm; [| |done].
  - apply getProperty_Own in Hm. eauto.
  - done.
Qed.

(** ** Cycles are found exactly when the search can reach them *)

Lemma detect_sound m p seen' :
  keyed idx → detect o idx m = Return (Some p) seen' →
  (∃ ks, p = display idx <$> (m :: ks ++ [m]) ∧
         chain o idx m (ks ++ [m]) ∧ NoDup ks ∧ (m ∉ ks) ∧ ks ≠ []) ∧
  reported o idx m.
Proof.
  intros Hkeyed Hrun. unfold detect in Hrun.
  apply isCyclic_post in Hrun as [_ [(ks & -> & Hch & Hnd & Hks) Hrep]];
    [|done|set_solver].
  split; [|done]. exists ks. repeat split; try done.
  - intros Hin. destruct (Hks _ Hin). set_solver.
  - intros ->. simpl in Hch. destruct Hch as [[Hne _] _]. done.
Qed.

Lemma closed_reach S init x y :
  (∀ z, z ∈ S → closed o idx S init z) →
  x ∈ S → rtc (walk o idx) x y → y ∈ S.
Proof.
  intros Hcl Hx Hr. induction Hr as [|x y z He Hr IH]; [done|].
  apply IH. by apply (Hcl _ Hx).
Qed.

Lemma detect_complete m seen' :
  keyed idx → detect o idx m = Return None seen' → ¬ reported o idx m.
Proof.
  intros Hkeyed Hrun (c & Hr & He). unfold detect in Hrun.
  apply isCyclic_post in Hrun as [Hsub Hcl]; [|done|set_solver].
  assert (Hall : ∀ z, z ∈ seen' → closed o idx seen' m z).
  { intros z Hz. apply Hcl; [done|]. left. set_solver. }
  assert (Hc : c ∈ seen').
  { apply (closed_reach seen' m m c); [done|set_solver|done]. }
  by destruct (Hall c Hc).
Qed.

Lemma detect_iff_reported m :
  keyed idx → is_Some (idx !! m) →
  (reported o idx m ↔ ∃ p seen', detect o idx m = Return (Some p) seen') ∧
  (¬ reported o idx m ↔ ∃ seen', detect o idx m = Return None seen').
Proof.
  intros Hkeyed Hm.
  destruct (detect_returns m Hkeyed Hm) as ([p|] & seen' & Hrun).
  - destruct (detect_sound _ _ _ Hkeyed Hrun) as [_ Hrep]. split; split.
    + eauto.
    + done.
    + done.
    + intros [s' Hrun']. congruence.
  - pose proof (detect_complete _ _ Hkeyed Hrun) as Hno. split; split.
    + done.
    + intros (p & s' & Hrun'). congruence.
    + eauto.
    + done.
Qed.

Lemma tc_last x z :
  tc (edge o idx) x z → ∃ y, rtc (edge o idx) x y ∧ edge o idx y z.
Proof.
  induction 1 as [x z He|x y z He _ (y' & Hr & He')].
  - exists x. split; [apply rtc_refl|done].
  - exists y'. split; [by eapply rtc_l|done].
Qed.

Lemma walk_link a b : walk o idx a b → link o idx a b.
Proof. intros (r & ? & ? & _). by exists r. Qed.

Lemma closes_edge c init : closes o idx c init → edge o idx c init.
Proof.
  intros [Hne (r & rm & Hr & Hf & Hid)]. split; [done|]. exists r. split; [done|].
  apply followed_Some. exists rm. split; [done|]. unfold keyOf. by rewrite Hid.
Qed.

Lemma rtc_link_edge x y : rtc (link o idx) x y → rtc (edge o idx) x y.
Proof.
  induction 1 as [|x y z Hl _ IH]; [done|].
  destruct (decide (x = y)) as [->|Hne]; [done|].
  eapply rtc_l; [|done]. by split.
Qed.

Lemma rtc_edge_link x y : rtc (edge o idx) x y → rtc (link o idx) x y.
Proof. apply rtc_subrel. by intros ? ? [_ ?]. Qed.

(** A module lies on a cycle iff it reaches, and is reached from, another
    module, whether or not self-references are counted as edges. *)
Lemma on_cycle_alt m :
  on_cycle o idx m ↔
  ∃ c, c ≠ m ∧ rtc (link o idx) m c ∧ rtc (link o idx) c m.
Proof.
  unfold on_cycle. split.
  - intros Htc. inversion Htc as [? ? He|? c ? He Htc']; subst.
    + by destruct He.
    + exists c. destruct He as [Hne Hl]. split; [done|].
      split; [by apply rtc_once|]. by apply rtc_edge_link, tc_rtc.
  - intros (c & Hne & H1%rtc_link_edge & H2%rtc_link_edge).
    apply rtc_tc in H1 as [->|H1]; [done|]. by eapply tc_rtc_r.
Qed.

(** What the search can find lies on a cycle. *)
Lemma reported_on_cycle m : reported o idx m → on_cycle o idx m.
Proof.
  intros (c & Hr & Hc). apply closes_edge in Hc as He.
  eapply tc_rtc_l; [|by apply tc_once].
  apply rtc_link_edge. revert Hr. apply rtc_subrel. apply walk_link.
Qed.

Lemma plain_keyed : plain idx → keyed idx.
Proof. intros Hp k m Hm. destruct (Hp _ _ Hm) as [Hid _]. unfold keyOf. by rewrite Hid. Qed.

(** On string ids that are not names of inherited properties, every cycle
    is one the search can find. *)
Lemma on_cycle_reported m : plain idx → on_cycle o idx m → reported o idx m.
Proof.
  intros Hp (c & Hr & He)%tc_last. pose proof (plain_keyed Hp) as Hkeyed.
  exists c. split.
  - revert Hr. apply rtc_subrel. intros a b [_ (r & Hab & Hf)].
    exists r. split; [done|]. split; [done|].
    destruct (followed_indexed _ _ Hkeyed Hf) as [x Hx]. by destruct (Hp _ _ Hx).
  - destruct He as [Hne (r & Hcr & (rm & Hf & Hk)%followed_Some)].
    split; [done|]. exists r, rm. split; [done|]. split; [done|].
    pose proof (followedModule_indexed _ _ Hkeyed Hf) as Hown.
    destruct (Hp _ _ Hown) as [Hid _]. by rewrite Hid, Hk.
Qed.

Lemma detect_iff_cycle m :
  plain idx → is_Some (idx !! m) →
  (on_cycle o idx m ↔ ∃ p seen', detect o idx m = Return (Some p) seen') ∧
  (¬ on_cycle o idx m ↔ ∃ seen', detect o idx m = Return None seen').
Proof.
  intros Hp Hm. pose proof (plain_keyed Hp) as Hkeyed.
  destruct (detect_iff_reported m Hkeyed Hm) as [Hyes Hno].
  assert (Hiff : on_cycle o idx m ↔ reported o idx m).
  { split; [by apply on_cycle_reported|apply reported_on_cycle]. }
  by rewrite Hiff.
Qed.

End Search.

(** ** The index builder *)

Section Builder.
Context (o : FullOptions).
Implicit Types (es : list (string * StatsModule.t)) (m : StatsModule.t).

Lemma fromEntries_snoc es e :
  fromEntries (es ++ [e]) = <[e.1 := e.2]> (fromEntries es).
Proof. unfold fromEntries. by rewrite foldl_app. Qed.

Lemma fromEntries_lookup_Some es k m :
  fromEntries es !! k = Some m → (k, m) ∈ es.
Proof.
  induction es as [|[k' m'] es IH] using rev_ind; [done|].
  rewrite fromEntries_snoc, elem_of_app, list_elem_of_singleton. simpl.
  destruct (decide (k' = k)) as [->|Hne].
  - rewrite lookup_insert_eq. intros [= ->]. by right.
  - rewrite lookup_insert_ne by done. auto.
Qed.

Lemma fromEntries_is_Some es k :
  is_Some (fromEntries es !! k) ↔ k ∈ es.*1.
Proof.
  induction es as [|[k' m'] es IH] using rev_ind.
  - rewrite fmap_nil, elem_of_nil. split; [|done]. by intros [? ?].
  - rewrite fromEntries_snoc, fmap_app, elem_of_app. simpl.
    rewrite list_elem_of_singleton, <- IH.
    destruct (decide (k' = k)) as [->|Hne].
    + rewrite lookup_insert_eq. split; eauto.
    + rewrite lookup_insert_ne by done. split; [auto|]. by intros [?|?].
Qed.

Lemma fromEntries_NoDup es k m :
  NoDup es.*1 → (k, m) ∈ es → fromEntries es !! k = Some m.
Proof.
  induction es as [|[k' m'] es IH] using rev_ind; [by intros _ ?%elem_of_nil|].
  rewrite fmap_app, fromEntries_snoc. simpl.
  intros (Hnd & Hfresh & _)%NoDup_app [Hin|Hin%list_elem_of_singleton]%elem_of_app.
  - assert (k ∈ es.*1) by (apply list_elem_of_fmap; by exists (k, m)).
    rewrite lookup_insert_ne; [by apply IH|].
    intros ->. apply (Hfresh k); [done|]. by apply list_elem_of_singleton.
  - injection Hin as -> ->. apply lookup_insert_eq.
Qed.

Lemma fromEntries_last es1 k v es2 :
  k ∉ es2.*1 → fromEntries (es1 ++ (k, v) :: es2) !! k = Some v.
Proof.
  induction es2 as [|[k' v'] es2 IH] using rev_ind; intros Hk.
  - rewrite fromEntries_snoc. apply lookup_insert_eq.
  - rewrite fmap_app in Hk. apply not_elem_of_app in Hk as [Hk Hk'].
    replace (es1 ++ (k, v) :: es2 ++ [(k', v')])%list
      with ((es1 ++ (k, v) :: es2) ++ [(k', v')])%list
      by (by rewrite <- (assoc_L (++))).
    rewrite fromEntries_snoc. simpl. rewrite lookup_insert_ne; [by apply IH|].
    intros ->. apply Hk'. simpl. left.
Qed.

Lemma entries_spec modules k m :
  (k, m) ∈ map (fun module => (keyOf module, module))
             (List.filter (retained o) (default [] modules)) ↔
  m ∈ default [] modules ∧ keyOf m = k ∧ retained o m = true.
Proof.
  rewrite list_elem_of_In, in_map_iff. split.
  - intros (x & [= <- <-] & [Hin Hr]%filter_In).
    by rewrite list_elem_of_In.
  - intros (Hin%list_elem_of_In & <- & Hr). exists m. by rewrite filter_In.
Qed.

Lemma modulesById_lookup modules k m :
  modulesById o modules !! k = Some m →
  m ∈ default [] modules ∧ keyOf m = k ∧ retained o m = true.
Proof. intros H%fromEntries_lookup_Some. by apply entries_spec. Qed.

Lemma modulesById_is_Some modules k :
  is_Some (modulesById o modules !! k) ↔
  ∃ m, m ∈ default [] modules ∧ keyOf m = k ∧ retained o m = true.
Proof.
  unfold modulesById. rewrite fromEntries_is_Some, list_elem_of_fmap. split.
  - intros ([k' m] & -> & H%entries_spec). eauto.
  - intros (m & H). exists (k, m). split; [done|]. by apply entries_spec.
Qed.

Lemma modulesById_unique modules m :
  NoDup (keyOf <$> default [] modules) →
  m ∈ default [] modules → retained o m = true →
  modulesById o modules !! keyOf m = Some m.
Proof.
  intros Hnd Hin Hr. apply fromEntries_NoDup; [|by apply entries_spec].
  clear Hin Hr. induction (default [] modules) as [|x l IH]; [constructor|].
  apply NoDup_cons in Hnd as [Hx Hnd]. simpl.
  destruct (retained o x); [|by apply IH]. simpl.
  apply NoDup_cons. split; [|by apply IH].
  intros ((k & m') & Hk & H%list_elem_of_In)%list_elem_of_fmap.
  apply in_map_iff in H as (y & [= <- <-] & [Hy _]%filter_In).
  simpl in Hk. apply Hx. rewrite Hk.
  apply list_elem_of_fmap. exists y. by rewrite list_elem_of_In.
Qed.

Lemma modulesById_keyed modules : keyed (modulesById o modules).
Proof. intros k m H. by apply modulesById_lookup in H as (_ & ? & _). Qed.

Lemma modulesById_snoc l y :
  modulesById o (Some (l ++ [y])%list)
  = if retained o y then <[keyOf y := y]> (modulesById o (Some l))
    else modulesById o (Some l).
Proof.
  unfold modulesById.
  change (default [] (Some (l ++ [y])%list)) with (l ++ [y])%list.
  change (default [] (Some l)) with l.
  rewrite List.filter_app. cbn [List.filter].
  destruct (retained o y).
  - rewrite map_app. cbn [map]. by rewrite fromEntries_snoc.
  - by rewrite app_nil_r.
Qed.

Lemma modulesById_later l1 m l2 :
  retained o m = true →
  (∀ y, y ∈ l2 → retained o y = true → keyOf y ≠ keyOf m) →
  modulesById o (Some (l1 ++ m :: l2)%list) !! keyOf m = Some m.
Proof.
  intros Hx Hl2. unfold modulesById.
  change (default [] (Some (l1 ++ m :: l2)%list)) with (l1 ++ m :: l2)%list.
  rewrite List.filter_app. cbn [List.filter]. rewrite Hx, map_app.
  cbn [map].
  apply fromEntries_last.
  intros ((k & y) & Hk & Hy%list_elem_of_In)%list_elem_of_fmap.
  apply in_map_iff in Hy as (z & [= <- <-] & [Hz Hr]%filter_In).
  simpl in Hk. apply (Hl2 z); [by apply list_elem_of_In|done|done].
Qed.

(** The module stored under a key is the last retained one with that key. *)
Lemma modulesById_last modules k m :
  modulesById o (Some modules) !! k = Some m ↔
  ∃ l1 l2, modules = (l1 ++ m :: l2)%list ∧ retained o m = true ∧ keyOf m = k ∧
           ∀ y, y ∈ l2 → retained o y = true → keyOf y ≠ k.
Proof.
  split.
  - induction modules as [|y l IH] using rev_ind; [done|].
    rewrite modulesById_snoc. destruct (retained o y) eqn:Hy.
    + destruct (decide (keyOf y = k)) as [Hk|Hk].
      * rewrite Hk, lookup_insert_eq. intros [= ->].
        exists l, []. split; [done|]. split; [done|]. split; [done|].
        intros z Hz. by apply elem_of_nil in Hz.
      * rewrite lookup_insert_ne by done.
        intros (l1 & l2 & -> & Hm & Hkm & Hl2)%IH.
        exists l1, (l2 ++ [y])%list. split; [by rewrite <- (assoc_L (++))|].
        split; [done|]. split; [done|].
        intros z [Hz| ->%list_elem_of_singleton]%elem_of_app; [by apply Hl2|done].
    + intros (l1 & l2 & -> & Hm & Hkm & Hl2)%IH.
      exists l1, (l2 ++ [y])%list. split; [by rewrite <- (assoc_L (++))|].
      split; [done|]. split; [done|].
      intros z [Hz| ->%list_elem_of_singleton]%elem_of_app; [by apply Hl2|].
      congruence.
  - intros (l1 & l2 & -> & Hm & <- & Hl2). by apply modulesById_later.
Qed.

Lemma retained_spec m :
  retained o m = true ↔
  StatsModule.orphan m = false ∧
  ∃ n, StatsModule.name m = Some n ∧ n ≠ "" ∧
       include o n = true ∧ exclude o n = false.
Proof.
  unfold retained. destruct (StatsModule.orphan m); simpl.
  { split; [done|]. by intros [? _]. }
  destruct (StatsModule.name m) as [n|].
  2:{ split; [done|]. by intros (_ & n & ? & _). }
  split.
  - intros [[Ht Hi]%andb_true_iff He%negb_true_iff]%andb_true_iff.
    split; [done|]. exists n. repeat split; try done. by intros ->.
  - intros (_ & n' & [= <-] & Hn & -> & ->).
    destruct n; [done|]. done.
Qed.

Lemma retained_named m : retained o m = true → named m = true.
Proof.
  unfold retained, named. destruct (StatsModule.name m); [|by rewrite andb_false_r].
  intros [_ [[? _]%andb_true_iff _]%andb_true_iff]%andb_true_iff. done.
Qed.

Lemma filter_named l :
  List.filter (retained o) (List.filter named l) = List.filter (retained o) l.
Proof.
  induction l as [|x l IH]; [done|]. simpl.
  destruct (named x) eqn:Hn; simpl; rewrite IH; [done|].
  destruct (retained o x) eqn:Hr; [|done].
  apply retained_named in Hr. congruence.
Qed.

End Builder.

Lemma modulesById_allowAsyncCycles b o modules :
  modulesById (with_allowAsyncCycles b o) modules = modulesById o modules.
Proof. done. Qed.

(** ** Further facts about the search *)

Section Facts.
Context (o : FullOptions) (idx : ModuleMap).
Implicit Types (self : string → gset string → Completion).

Lemma link_indexed a b : link o idx a b → is_Some (idx !! a).
Proof.
  intros (r & Hr & _). unfold reasonsOf in Hr.
  destruct (idx !! a); [eauto|]. by apply elem_of_nil in Hr.
Qed.

Lemma chain_indexed x ks k :
  chain o idx x ks → k ∈ ks → is_Some (idx !! k).
Proof.
  revert x. induction ks as [|a ks IH]; intros x Hch Hin.
  { by apply elem_of_nil in Hin. }
  destruct Hch as [[_ Hl] Hch].
  apply elem_of_cons in Hin as [->|Hin]; [by eapply link_indexed|eauto].
Qed.

Lemma closing_snoc init p x : closing idx init p → closing idx init (p ++ [x]).
Proof.
  intros [Hlen (c & rm & r & ? & ? & ? & ? & H0 & H1)]. split.
  - rewrite length_app. lia.
  - exists c, rm, r. repeat split; try done.
    + rewrite lookup_app_l; [done|lia].
    + rewrite lookup_app_l; [done|lia].
Qed.

Lemma loop_closing self init cur :
  (∀ k s p s', self k s = Return (Some p) s' → closing idx init p) →
  ∀ rs seen p seen',
    (∀ r, r ∈ rs → r ∈ reasonsOf idx cur) →
    isCyclic_loop o self init cur (idx !! cur ≫= StatsModule.name) idx rs seen
    = Return (Some p) seen' →
    closing idx init p.
Proof.
  intros Hself rs. induction rs as [|r rs IH]; intros seen p seen' Hrs Hrun; [done|].
  assert (Hrs' : ∀ r', r' ∈ rs → r' ∈ reasonsOf idx cur).
  { intros r' Hr'. apply Hrs. by right. }
  assert (Hr : r ∈ reasonsOf idx cur) by (apply Hrs; left).
  simpl in Hrun.
  destruct (reasonModule idx r) as [[rm|]|] eqn:Hrm; [|eauto..].
  destruct (negb (truthyId (StatsModule.id rm))); [eauto|].
  destruct (allowAsyncCycles o && isDynamic r); [eauto|].
  destruct (inObject seen (keyOf rm)).
  - destruct (strictEq (StatsModule.id rm) init &&
              negb (bool_decide (cur = init))) eqn:Hc; [|eauto].
    apply andb_true_iff in Hc as [Hi%strictEq_true Hn%negb_true_iff].
    apply bool_decide_eq_false in Hn. injection Hrun as <- <-.
    split; [simpl; lia|]. exists cur, rm, r. done.
  - destruct (self (keyOf rm) seen) as [| |[p'|] s'] eqn:Hcall;
      try discriminate; [|eauto].
    injection Hrun as <- <-. apply closing_snoc. eauto.
Qed.

Lemma isCyclic_closing fuel init cur seen p seen' :
  isCyclic o fuel init cur idx seen = Return (Some p) seen' → closing idx init p.
Proof.
  revert cur seen p seen'.
  induction fuel as [|fuel IH]; intros cur seen p seen' Hrun; [done|].
  cbn [isCyclic] in Hrun.
  destruct (getProperty idx cur) as [[cm|nm]|] eqn:Hcm; [|done|done].
  apply getProperty_Own in Hcm.
  change (propertyName (Some (Own cm))) with (Some cm ≫= StatsModule.name) in Hrun.
  rewrite <- Hcm in Hrun. eapply loop_closing in Hrun; [done|eauto|].
  intros r Hr. unfold reasonsOf. by rewrite Hcm.
Qed.

(** Recursion is entered on unvisited modules only: the loop does not
    depend on what [self] does on a visited module. *)
Lemma loop_self_ext self1 self2 init cur nm rs seen :
  (∀ k s, k ∉ s → self1 k s = self2 k s) →
  isCyclic_loop o self1 init cur nm idx rs seen
  = isCyclic_loop o self2 init cur nm idx rs seen.
Proof.
  intros Hext. revert seen. induction rs as [|r rs IH]; intros seen; [done|].
  simpl. destruct (reasonModule idx r) as [[rm|]|]; [|done..].
  destruct (negb (truthyId (StatsModule.id rm))); [done|].
  destruct (allowAsyncCycles o && isDynamic r); [done|].
  destruct (inObject seen (keyOf rm)) eqn:Hs.
  - by rewrite IH.
  - apply inObject_false in Hs as [Hs _]. rewrite (Hext _ _ Hs).
    destruct (self2 (keyOf rm) seen) as [| |[p|] s']; try done.
Qed.

(** More fuel never changes a result. *)
Lemma loop_fuel self1 self2 init cur nm rs seen :
  (∀ k s, self1 k s ≠ Timeout → self2 k s = self1 k s) →
  isCyclic_loop o self1 init cur nm idx rs seen ≠ Timeout →
  isCyclic_loop o self2 init cur nm idx rs seen
  = isCyclic_loop o self1 init cur nm idx rs seen.
Proof.
  intros Hext. revert seen. induction rs as [|r rs IH]; intros seen; [done|].
  simpl. destruct (reasonModule idx r) as [[rm|]|]; [|auto..].
  destruct (negb (truthyId (StatsModule.id rm))); [auto|].
  destruct (allowAsyncCycles o && isDynamic r); [auto|].
  destruct (inObject seen (keyOf rm)).
  - destruct (strictEq (StatsModule.id rm) init &&
              negb (bool_decide (cur = init))); auto.
  - destruct (self1 (keyOf rm) seen) as [| |[p|] s'] eqn:Hcall;
      intros Hno; try done.
    + rewrite Hext by congruence. by rewrite Hcall.
    + rewrite Hext by congruence. by rewrite Hcall.
    + rewrite Hext by congruence. rewrite Hcall. auto.
Qed.

Lemma isCyclic_fuel fuel fuel' init cur seen :
  (fuel ≤ fuel')%nat →
  isCyclic o fuel init cur idx seen ≠ Timeout →
  isCyclic o fuel' init cur idx seen = isCyclic o fuel init cur idx seen.
Proof.
  revert fuel' cur seen.
  induction fuel as [|fuel IH]; intros fuel' cur seen Hle Hno; [done|].
  destruct fuel' as [|fuel']; [lia|].
  cbn [isCyclic] in *. destruct (getProperty idx cur) as [p|]; [|done].
  apply loop_fuel; [|done]. intros k s Hk. apply IH; [lia|done].
Qed.

End Facts.

(** ** What the search visits *)

Section Reach.
Context (o : FullOptions) (idx : ModuleMap).
Implicit Types (self : string → gset string → Completion).

Lemma loop_reach self init cur nm :
  (∀ k s r s', self k s = Return r s' →
               ∀ x, x ∈ s' → x ∈ s ∨ rtc (walk o idx) k x) →
  ∀ rs seen res seen',
    (∀ r, r ∈ rs → r ∈ reasonsOf idx cur) →
    isCyclic_loop o self init cur nm idx rs seen = Return res seen' →
    ∀ x, x ∈ seen' → x ∈ seen ∨ rtc (walk o idx) cur x.
Proof.
  intros Hself rs. induction rs as [|r rs IH]; intros seen res seen' Hrs Hrun x Hx.
  { injection Hrun as <- <-. by left. }
  assert (Hrs' : ∀ r', r' ∈ rs → r' ∈ reasonsOf idx cur).
  { intros r' Hr'. apply Hrs. by right. }
  assert (Hr : r ∈ reasonsOf idx cur) by (apply Hrs; left).
  destruct (followedModule o idx r) as [rm|] eqn:Hf.
  2:{ rewrite loop_skip in Hrun by done. eauto. }
  destruct (inObject seen (keyOf rm)) eqn:Hin.
  - rewrite (loop_seen o idx _ _ _ _ _ _ _ rm) in Hrun by done.
    destruct (strictEq (StatsModule.id rm) init && negb (bool_decide (cur = init)));
      [|eauto].
    injection Hrun as <- <-. by left.
  - rewrite (loop_fresh o idx _ _ _ _ _ _ _ rm) in Hrun by done.
    apply inObject_false in Hin as [Hk Hni].
    assert (Hstep : ∀ y, rtc (walk o idx) (keyOf rm) y → rtc (walk o idx) cur y).
    { intros y Hy. eapply rtc_l; [|exact Hy]. exists r. split; [done|].
      split; [|done]. apply followed_Some. eauto. }
    destruct (self (keyOf rm) seen) as [| |[p'|] s'] eqn:Hcall; try discriminate.
    + injection Hrun as <- <-.
      destruct (Hself _ _ _ _ Hcall x Hx) as [?|?]; [by left|right; auto].
    + destruct (IH _ _ _ Hrs' Hrun x Hx) as [Hs'|?]; [|by right].
      destruct (Hself _ _ _ _ Hcall x Hs') as [?|?]; [by left|right; auto].
Qed.

Lemma isCyclic_reach fuel init cur seen res seen' :
  isCyclic o fuel init cur idx seen = Return res seen' →
  ∀ x, x ∈ seen' → x ∈ seen ∨ rtc (walk o idx) cur x.
Proof.
  revert cur seen res seen'.
  induction fuel as [|fuel IH]; intros cur seen res seen' Hrun x Hx; [done|].
  cbn [isCyclic] in Hrun.
  destruct (getProperty idx cur) as [[cm|nm]|] eqn:Hcm; [| |discriminate].
  - apply getProperty_Own in Hcm.
    eapply loop_reach in Hrun as [Hin|Hr]; [| |eauto| |exact Hx].
    + apply elem_of_union in Hin as [->%elem_of_singleton|?]; [by right|by left].
    + by right.
    + intros r Hr. unfold reasonsOf. by rewrite Hcm.
  - simpl in Hrun. injection Hrun as <- <-.
    apply elem_of_union in Hx as [->%elem_of_singleton|?]; [by right|by left].
Qed.

Lemma walk_indexed a b : keyed idx → walk o idx a b → is_Some (idx !! b).
Proof. intros Hk (r & _ & Hf & _). by eapply followed_indexed. Qed.

Lemma reach_indexed a b :
  keyed idx → is_Some (idx !! a) → rtc (walk o idx) a b → is_Some (idx !! b).
Proof.
  intros Hk Ha [->|(y & _ & He)]%rtc_inv_r; [done|]. by eapply walk_indexed.
Qed.

Lemma detect_visits m res seen' :
  keyed idx → detect o idx m = Return res seen' →
  (∀ x, x ∈ seen' → rtc (walk o idx) m x) ∧
  (res = None → ∀ x, rtc (walk o idx) m x → x ∈ seen').
Proof.
  intros Hkeyed Hrun. split.
  - intros x Hx. unfold detect in Hrun.
    destruct (isCyclic_reach _ _ _ _ _ _ Hrun x Hx) as [?|Hr]; [set_solver|done].
  - intros -> x Hr. unfold detect in Hrun.
    apply isCyclic_post in Hrun as [Hsub Hcl]; [|done|set_solver].
    apply (closed_reach o idx seen' m m x); [|set_solver|exact Hr].
    intros z Hz. apply Hcl; [done|]. left. set_solver.
Qed.

Lemma chain_member_cycle m ks k :
  chain o idx m (ks ++ [m]) → k ∈ ks → on_cycle o idx k.
Proof.
  intros Hch (l1 & l2 & ->)%list_elem_of_split.
  replace ((l1 ++ k :: l2) ++ [m])%list
    with ((l1 ++ [k]) ++ (l2 ++ [m]))%list in Hch
    by (by rewrite <- !(assoc_L (++))).
  apply chain_app in Hch as [H1 H2]. rewrite List.last_last in H2.
  apply chain_tc in H1, H2. by eapply tc_trans.
Qed.

Lemma NoDup_indexed_length (l : list string) :
  NoDup l → (∀ k, k ∈ l → is_Some (idx !! k)) → (length l ≤ size idx)%nat.
Proof.
  intros Hnd Hin. rewrite <- (size_dom (D:=gset string)).
  change (size (dom idx)) with (length (elements (dom idx : gset string))).
  apply submseteq_length, NoDup_submseteq; [done|].
  intros k Hk. apply elem_of_elements, elem_of_dom. auto.
Qed.

End Reach.

Lemma tc_mono {A} (R1 R2 : relation A) x y :
  (∀ a b, R1 a b → R2 a b) → tc R1 x y → tc R2 x y.
Proof.
  intros Hsub. induction 1 as [x y H|x y z H _ IH].
  - apply tc_once. auto.
  - eapply tc_l; eauto.
Qed.

Lemma normalizePath_Some n : ∃ d, normalizePath (Some n) = Some d.
Proof. unfold normalizePath. repeat case_match; eauto. Qed.

Lemma plain_built o modules :
  Forall (fun x => ∃ s, StatsModule.id x = IdString s ∧ isInherited s = false)
         (default [] modules) →
  plain (modulesById o modules).
Proof.
  intros HF k m (Hin & Hk & _)%modulesById_lookup.
  rewrite Forall_forall in HF. destruct (HF m Hin) as (s & Hid & Hs).
  unfold keyOf in Hk. rewrite Hid in Hk. simpl in Hk. by subst s.
Qed.

Lemma checkModules_returns o idx keys c :
  keyed idx → (∀ k, k ∈ keys → is_Some (idx !! k)) →
  is_Some (checkModules o idx keys c).
Proof.
  intros Hkeyed. revert c. induction keys as [|k keys IH]; intros c Hin.
  { simpl. eauto. }
  simpl. unfold checkModule.
  destruct (detect_returns o idx k Hkeyed) as ([p|] & seen' & ->).
  { apply Hin. left. }
  - apply IH. intros k' Hk'. apply Hin. by right.
  - apply IH. intros k' Hk'. apply Hin. by right.
Qed.

(** ** Worked examples *)

Example detect_two_cycle_b :
  detect defaults (modulesById defaults two_cycle) "b.js"
  = Return (Some ["b.js"; "a.js"; "b.js"]) {["a.js"; "b.js"]}.
Proof. vm_compute. reflexivity. Qed.

Example detect_async_cycle_allowed :
  detect (with_allowAsyncCycles true defaults)
    (modulesById defaults async_cycle) "a.js" = Return None {["a.js"]}.
Proof. vm_compute. reflexivity. Qed.

Example detect_async_cycle_reported :
  detect (with_allowAsyncCycles false defaults)
    (modulesById defaults async_cycle) "a.js"
  = Return (Some ["a.js"; "b.js"; "a.js"]) {["a.js"; "b.js"]}.
Proof. vm_compute. reflexivity. Qed.

Example detect_numeric_async_cycle :
  detect (with_allowAsyncCycles true defaults)
    (modulesById defaults numeric_async_cycle) "670" = Return None {["670"]} ∧
  detect (with_allowAsyncCycles false defaults)
    (modulesById defaults numeric_async_cycle) "670"
  = Return None {["670"; "899"]}.
Proof. vm_compute. done. Qed.

Example detect_self_loop :
  detect defaults (modulesById defaults self_loop) "a.js" = Return None {["a.js"]}.
Proof. vm_compute. reflexivity. Qed.

Example detect_nameless_cycle :
  modulesById defaults nameless_cycle !! "n" = None ∧
  detect defaults (modulesById defaults nameless_cycle) "a.js"
  = Return None {["a.js"; "b.js"]} ∧
  detect defaults (modulesById defaults nameless_cycle) "n" = TypeError.
Proof. vm_compute. done. Qed.

Example base_error_message :
  report defaults ["a.js"; "b.js"; "a.js"] empty_compilation
  = {| errors := [];
       warnings := [NewError ("Circular dependency detected:" ++
                      String "013"%char (String "010"%char "a.js -> b.js -> a.js"))] |}.
Proof. vm_compute. reflexivity. Qed.

Example checkModule_warning :
  checkModule defaults (modulesById defaults two_cycle) "a.js" empty_compilation
  = Some {| errors := [];
            warnings := [cycleMessage ["a.js"; "b.js"; "a.js"]] |}.
Proof. vm_compute. reflexivity. Qed.

Example normalizePath_examples :
  normalizePath (Some "./src/a.js") = Some "src/a.js" ∧
  normalizePath (Some "src/./a.js") = Some "src/./a.js" ∧
  normalizePath (Some "") = Some "" ∧ normalizePath None = None.
Proof. done. Qed.

Example re_dynamic_examples :
  re_dynamic "dynamic import" = true ∧ re_dynamic "import()" = true ∧
  re_dynamic "import() context element" = true ∧
  re_dynamic "esm import" = false ∧ re_dynamic "" = false.
Proof. vm_compute. done. Qed.

Example jsString_examples :
  jsString (IdNumber 670) = "670" ∧ jsString (IdNumber 0) = "0" ∧
  jsString (IdString "./a.js") = "./a.js" ∧
  strictEq (IdNumber 670) "670" = false ∧ strictEq (IdString "670") "670" = true.
Proof. vm_compute. done. Qed.

(** ** The properties of the specification *)

(** C1, at the input where the code departs from it.  The index built from
    two modules with the numeric ids 670 and 899 that import each other has
    the keys "670" and "899", and both lie on a cycle of followed reasons;
    yet the search returns no path from either: the closing test
    [reasonModule.id === initialModule] compares the number 670 with the
    key "670". *)
Theorem detection_misses_numeric_cycle :
  let idx := modulesById defaults numeric_cycle in
  dom idx = {["670"; "899"]} ∧
  on_cycle defaults idx "670" ∧ on_cycle defaults idx "899" ∧
  detect defaults idx "670" = Return None {["670"; "899"]} ∧
  detect defaults idx "899" = Return None {["670"; "899"]}.
Proof.
  intros idx.
  assert (H1 : edge defaults idx "670" "899").
  { split; [done|]. exists (staticn 899). split; [|vm_compute; reflexivity].
    vm_compute. right. left. }
  assert (H2 : edge defaults idx "899" "670").
  { split; [done|]. exists (staticn 670). split; [|vm_compute; reflexivity].
    vm_compute. left. }
  split; [vm_compute; reflexivity|].
  split; [eapply tc_l; [exact H1|by apply tc_once]|].
  split; [eapply tc_l; [exact H2|by apply tc_once]|].
  apply detect_numeric_cycle.
Qed.

Lemma two_module_cycle (o : FullOptions) (idx : ModuleMap) (a b : string) :
  plain idx → (∀ k, is_Some (idx !! k) → k = a ∨ k = b) → a ≠ b →
  link o idx a b → link o idx b a →
  ∃ seen', detect o idx a
           = Return (Some [display idx a; display idx b; display idx a]) seen'.
Proof.
  intros Hp Hdom Hne Hab Hba. pose proof (plain_keyed idx Hp) as Hkeyed.
  assert (Hm : is_Some (idx !! a)) by by eapply link_indexed.
  assert (Hcyc : on_cycle o idx a).
  { eapply tc_l; [by split|]. apply tc_once. by split. }
  apply (detect_iff_cycle o idx a Hp Hm) in Hcyc as (p & seen' & Hrun).
  exists seen'. rewrite Hrun. do 2 f_equal.
  destruct (detect_sound o idx _ _ _ Hkeyed Hrun)
    as [(ks & -> & Hch & Hnd & Hnot & Hnil) _].
  assert (Hall : ∀ k, k ∈ ks → k = b).
  { intros k Hk.
    assert (Hs : is_Some (idx !! k)).
    { eapply chain_indexed; [exact Hch|]. apply elem_of_app. by left. }
    destruct (Hdom k Hs) as [Hka|Hkb]; [|done]. by subst k. }
  destruct ks as [|k1 [|k2 ks]]; [done| |].
  - rewrite (Hall k1) by left. done.
  - apply NoDup_cons in Hnd as [Hk1 _]. exfalso. apply Hk1.
    rewrite (Hall k1) by left. rewrite (Hall k2) by (right; left). left.
Qed.

(** C2, as amended.  When the index holds exactly two modules [a] and [b],
    whose ids are strings that do not name a property of
    [Object.prototype], each with a followed reason whose source is the
    other, the search started at either module returns the three-element
    path [start; other; start]: the start module is listed first and
    last. *)
Theorem two_module_cycle_path (o : FullOptions)
    (modules : option (list StatsModule.t)) (a b : string) :
  let idx := modulesById o modules in
  plain idx →
  dom idx = {[a; b]} → a ≠ b → link o idx a b → link o idx b a →
  (∃ seen', detect o idx a
            = Return (Some [display idx a; display idx b; display idx a]) seen') ∧
  (∃ seen', detect o idx b
            = Return (Some [display idx b; display idx a; display idx b]) seen').
Proof.
  intros idx Hp Hdom Hne Hab Hba.
  assert (Hk : ∀ k, is_Some (idx !! k) → k = a ∨ k = b).
  { intros k Hk%elem_of_dom. rewrite Hdom in Hk. set_solver. }
  split.
  - by apply two_module_cycle.
  - apply two_module_cycle; try done. intros k [->| ->]%Hk; auto.
Qed.

Lemma two_module_cycle_path_witness :
  plain (modulesById defaults two_cycle) ∧
  dom (modulesById defaults two_cycle) = {["a.js"; "b.js"]} ∧
  "a.js" ≠ "b.js" ∧
  ∃ seen', detect defaults (modulesById defaults two_cycle) "a.js"
           = Return (Some ["a.js"; "b.js"; "a.js"]) seen'.
Proof.
  assert (Hp : plain (modulesById defaults two_cycle)).
  { apply plain_built. repeat (constructor; [by eexists|]). constructor. }
  assert (Hdom : dom (modulesById defaults two_cycle) = {["a.js"; "b.js"]})
    by (vm_compute; reflexivity).
  assert (Hne : "a.js" ≠ "b.js") by discriminate.
  split; [exact Hp|]. split; [exact Hdom|]. split; [exact Hne|].
  refine (proj1 (two_module_cycle_path defaults two_cycle "a.js" "b.js"
                   Hp Hdom Hne _ _)).
  - exists (static "b.js"). split; [|vm_compute; reflexivity].
    vm_compute. right. left.
  - exists (static "a.js"). split; [|vm_compute; reflexivity].
    vm_compute. left.
Defined.

(** C2, as stated, fails: for a.js and b.js importing each other the search
    from a.js returns [a.js; b.js; a.js], so no returned path has length 2
    and a.js is listed twice. *)
Lemma two_module_cycle_not_length_2 :
  detect defaults (modulesById defaults two_cycle) "a.js"
  = Return (Some ["a.js"; "b.js"; "a.js"]) {["a.js"; "b.js"]} ∧
  ¬ ∃ p seen', detect defaults (modulesById defaults two_cycle) "a.js"
               = Return (Some p) seen' ∧ length p = 2%nat.
Proof.
  split; [apply detect_two_cycle|].
  intros (p & seen' & Hrun & Hlen).
  rewrite detect_two_cycle in Hrun. injection Hrun as <- _. discriminate.
Qed.

(** C3.  Every path a call of [isCyclic] returns, at any depth of the
    search, has at least two elements; its first element is the display
    name of a module whose id is [initialModule], and that module is the
    source of a reason (the closing edge) of another module, the one whose
    display name is the second element. *)
Theorem returned_path_shape (o : FullOptions) (idx : ModuleMap) (fuel : nat)
    (init cur : string) (seen seen' : gset string) (p : list string) :
  isCyclic o fuel init cur idx seen = Return (Some p) seen' →
  (2 ≤ length p)%nat ∧
  ∃ c rm reason,
    c ≠ init ∧ reason ∈ reasonsOf idx c ∧
    reasonModule idx reason = Some (Own rm) ∧ StatsModule.id rm = IdString init ∧
    p !! 0%nat = Some (displayOf rm) ∧ p !! 1%nat = Some (display idx c).
Proof. apply isCyclic_closing. Qed.

Lemma returned_path_shape_witness :
  isCyclic defaults 1 "a.js" "b.js" (modulesById defaults two_cycle) {["a.js"]}
  = Return (Some ["a.js"; "b.js"]) {["a.js"; "b.js"]} ∧
  (2 ≤ length ["a.js"; "b.js"])%nat.
Proof.
  assert (H : isCyclic defaults 1 "a.js" "b.js" (modulesById defaults two_cycle)
                {["a.js"]}
              = Return (Some ["a.js"; "b.js"]) {["a.js"; "b.js"]})
    by (vm_compute; reflexivity).
  split; [exact H|].
  exact (proj1 (returned_path_shape _ _ _ _ _ _ _ _ H)).
Defined.

(** C4, as amended.  A module passes the filter iff it is not orphaned and
    has a non-empty name matched by [include] and not matched by [exclude].
    The index holds under a key exactly the last module of the list that
    passes the filter and whose id gives that key: a later such module
    overwrites an earlier one.  Hence a key is indexed iff some module that
    passes the filter carries it, and when the keys are unique in the list
    a module of the list is indexed iff it passes the filter.  With the
    default patterns every non-orphan module with a non-empty name passes.
    An absent or empty module list gives the empty index.  The builder is a
    total function: it has no failing outcome. *)
Theorem index_retention (o : FullOptions) (modules : list StatsModule.t) :
  let idx := modulesById o (Some modules) in
  (∀ m, retained o m = true ↔
        StatsModule.orphan m = false ∧
        ∃ n, StatsModule.name m = Some n ∧ n ≠ "" ∧
             include o n = true ∧ exclude o n = false) ∧
  (∀ k m, idx !! k = Some m ↔
          ∃ l1 l2, modules = (l1 ++ m :: l2)%list ∧
                   retained o m = true ∧ keyOf m = k ∧
                   ∀ y, y ∈ l2 → retained o y = true → keyOf y ≠ k) ∧
  (∀ k, is_Some (idx !! k) ↔
        ∃ m, m ∈ modules ∧ keyOf m = k ∧ retained o m = true) ∧
  (NoDup (keyOf <$> modules) →
   ∀ m, m ∈ modules → (idx !! keyOf m = Some m ↔ retained o m = true)) ∧
  (∀ opts m, opt_include opts = None → opt_exclude opts = None →
             retained (constructor opts) m
             = negb (StatsModule.orphan m) && named m) ∧
  modulesById o (Some []) = ∅ ∧ modulesById o None = ∅.
Proof.
  intros idx. split; [apply retained_spec|].
  split; [apply modulesById_last|].
  split; [apply (modulesById_is_Some o (Some modules))|].
  split; [|split; [|done]].
  - intros Hnd m Hin. split.
    + by intros (_ & _ & ?)%modulesById_lookup.
    + by apply (modulesById_unique o (Some modules)).
  - intros opts m Hi He. unfold retained, named, constructor. simpl.
    rewrite Hi, He. simpl. unfold re_any, re_empty_only.
    destruct (StatsModule.name m) as [n|]; [|done].
    by destruct (truthy n).
Qed.

Lemma index_retention_witness :
  NoDup (keyOf <$> default [] two_cycle) ∧
  modulesById defaults two_cycle !! "b.js" = Some (mk "b.js" [static "a.js"]).
Proof.
  assert (Hnd : NoDup (keyOf <$> default [] two_cycle)).
  { vm_compute. repeat constructor; set_solver. }
  split; [exact Hnd|].
  apply (proj1 (proj2 (proj2 (proj2 (index_retention defaults (default [] two_cycle)))))
           Hnd (mk "b.js" [static "a.js"])).
  - right. left.
  - reflexivity.
Defined.

(** C4, as stated, fails: the first module of [duplicate_ids] is not
    orphaned and has a non-empty name that the default patterns accept, yet
    the index does not contain it under any key: the later module with the
    same id has taken its place. *)
Lemma retained_module_not_indexed :
  let x := mk "a.js" [static "b.js"] in
  x ∈ default [] duplicate_ids ∧
  retained defaults x = true ∧
  StatsModule.orphan x = false ∧ StatsModule.name x = Some "./a.js" ∧
  ∀ k, modulesById defaults duplicate_ids !! k ≠ Some x.
Proof.
  intros x. split; [left|]. split; [done|]. split; [done|]. split; [done|].
  intros k Hk.
  pose proof (modulesById_lookup _ _ _ _ Hk) as (_ & Hkey & _).
  rewrite <- Hkey in Hk. vm_compute in Hk. discriminate.
Qed.

(** C5, at the input where the code departs from it.  In the index built
    from the modules 670 and 899, where 899 reaches 670 through [import()]
    only, 670 lies on a cycle when all reasons count and on none once the
    dynamic ones are left out; the search reports nothing with
    [allowAsyncCycles = true], as claimed, but nothing either with
    [allowAsyncCycles = false]: the closing test compares the number 670
    with the key "670". *)
Theorem async_numeric_cycle_missed :
  let idx := modulesById defaults numeric_async_cycle in
  on_cycle (with_allowAsyncCycles false defaults) idx "670" ∧
  ¬ on_cycle (with_allowAsyncCycles true defaults) idx "670" ∧
  detect (with_allowAsyncCycles true defaults) idx "670" = Return None {["670"]} ∧
  detect (with_allowAsyncCycles false defaults) idx "670"
  = Return None {["670"; "899"]}.
Proof.
  intros idx. split; [|split; [|apply detect_numeric_async_cycle]].
  - apply (tc_l _ "670" "899" "670"); [|apply tc_once].
    + split; [done|]. exists (dynamicn 899). split; [|vm_compute; reflexivity].
      vm_compute. right. left.
    + split; [done|]. exists (staticn 670). split; [|vm_compute; reflexivity].
      vm_compute. left.
  - assert (Hno : ∀ y, ¬ edge (with_allowAsyncCycles true defaults) idx "670" y).
    { intros y [_ (r & Hr & Hf)]. vm_compute in Hr.
      apply elem_of_cons in Hr as [->|Hr]; [discriminate Hf|].
      apply list_elem_of_singleton in Hr as ->. discriminate Hf. }
    intros Htc. inversion Htc as [? ? He|? y ? He _]; subst; by apply (Hno _ He).
Qed.

(** C6.  A self-reference alone is never reported: when every module that
    [m] reaches and that reaches [m] back (self-references counted as
    edges) is [m] itself, the search started at [m] returns no cycle. *)
Theorem self_reference_not_reported (o : FullOptions)
    (modules : option (list StatsModule.t)) (m : string) :
  let idx := modulesById o modules in
  is_Some (idx !! m) →
  (∀ c, rtc (link o idx) m c → rtc (link o idx) c m → c = m) →
  ∃ seen', detect o idx m = Return None seen'.
Proof.
  intros idx Hm Honly.
  pose proof (modulesById_keyed o modules) as Hkeyed. fold idx in Hkeyed.
  apply (detect_iff_reported o idx m Hkeyed Hm).
  intros (c & Hne & H1 & H2)%reported_on_cycle%on_cycle_alt. by apply Hne, Honly.
Qed.

Lemma self_loop_links c :
  rtc (link defaults (modulesById defaults self_loop)) "a.js" c → c = "a.js".
Proof.
  remember "a.js" as a eqn:Ha. induction 1 as [|x y z Hl _ IH]; [done|].
  assert (Hy : y = x).
  { subst x. destruct Hl as (r & Hr & Hf).
    vm_compute in Hr.
    apply elem_of_cons in Hr as [->|Hr]; [discriminate Hf|].
    apply list_elem_of_singleton in Hr as ->.
    vm_compute in Hf. by injection Hf as <-. }
  subst y. by apply IH.
Qed.

Lemma self_reference_not_reported_witness :
  link defaults (modulesById defaults self_loop) "a.js" "a.js" ∧
  ∃ seen', detect defaults (modulesById defaults self_loop) "a.js"
           = Return None seen'.
Proof.
  split.
  - exists (static "a.js"). split; [|vm_compute; reflexivity].
    vm_compute. right. left.
  - apply (self_reference_not_reported defaults self_loop "a.js").
    + eexists. vm_compute. reflexivity.
    + intros c Hc _. by apply self_loop_links.
Defined.

(** C7.  The search terminates on every finite index: a call never needs
    more than [size idx + 1] nested calls, whatever the start, the current
    module and the visited set, and more fuel never changes its result; on
    an index built by [apply] the search from an indexed module returns.
    A call marks its module and never unmarks one.  A reason whose source is
    already visited is passed over without a recursive call, unless it
    closes back to the start from another module; and the loop never calls
    itself on a visited module, since its result does not depend on what a
    recursive call would do there. *)
Theorem search_terminates (o : FullOptions) (idx : ModuleMap) :
  (∀ init cur seen, isCyclic o (S (size idx)) init cur idx seen ≠ Timeout) ∧
  (∀ fuel init cur seen,
     (size idx < fuel)%nat →
     isCyclic o fuel init cur idx seen
     = isCyclic o (S (size idx)) init cur idx seen) ∧
  (keyed idx → ∀ m, is_Some (idx !! m) →
     ∃ res seen', detect o idx m = Return res seen') ∧
  (∀ fuel init cur seen res seen',
     isCyclic o fuel init cur idx seen = Return res seen' →
     {[cur]} ∪ seen ⊆ seen') ∧
  (∀ self init cur nm reason rs seen k,
     followed o idx reason = Some k → k ∈ seen →
     ¬ (k = init ∧ cur ≠ init) →
     isCyclic_loop o self init cur nm idx (reason :: rs) seen
     = isCyclic_loop o self init cur nm idx rs seen) ∧
  (∀ self1 self2 init cur nm rs seen,
     (∀ k s, k ∉ s → self1 k s = self2 k s) →
     isCyclic_loop o self1 init cur nm idx rs seen
     = isCyclic_loop o self2 init cur nm idx rs seen).
Proof.
  assert (Hfuel : ∀ init cur seen,
            isCyclic o (S (size idx)) init cur idx seen ≠ Timeout).
  { intros init cur seen. apply isCyclic_no_timeout. apply Nat.lt_succ_r.
    etrans; [|apply size_ids]. apply subseteq_size. set_solver. }
  split; [done|]. split; [|split; [|split; [|split]]].
  - intros fuel init cur seen Hlt. apply isCyclic_fuel; [lia|apply Hfuel].
  - intros Hkeyed m Hm. by apply detect_returns.
  - apply isCyclic_seen_mono.
  - intros self init cur nm reason rs seen k (rm & Hf & Hk)%followed_Some Hin Hnot.
    rewrite (loop_seen o idx _ _ _ _ _ _ _ rm Hf)
      by (apply inObject_true; left; by rewrite Hk).
    destruct (strictEq (StatsModule.id rm) init &&
              negb (bool_decide (cur = init))) eqn:Hc; [|done].
    apply andb_true_iff in Hc as [Hi%strictEq_true Hn%negb_true_iff].
    apply bool_decide_eq_false in Hn. destruct Hnot. split; [|done].
    rewrite <- Hk. unfold keyOf. by rewrite Hi.
  - apply loop_self_ext.
Qed.

Lemma search_terminates_witness :
  keyed (modulesById defaults two_cycle) ∧
  ∃ res seen', detect defaults (modulesById defaults two_cycle) "b.js"
               = Return res seen'.
Proof.
  pose proof (modulesById_keyed defaults two_cycle) as Hkeyed.
  split; [exact Hkeyed|].
  apply (proj1 (proj2 (proj2 (search_terminates defaults
                                (modulesById defaults two_cycle)))) Hkeyed).
  eexists. vm_compute. reflexivity.
Defined.

(** C8, as amended.  On the index built by [apply], the search started at
    any key of the index returns, so the loop of [apply] over the keys
    completes: no call reads a property of an absent module.  A module
    without a usable name is never part of the index, so no search starts
    at it, no reason is resolved to it, every reported path runs through
    named indexed modules only, and the index, hence every verdict, is the
    one obtained with such modules removed from the list. *)
Theorem detector_returns_on_index (o : FullOptions)
    (modules : option (list StatsModule.t)) :
  let idx := modulesById o modules in
  (∀ m, is_Some (idx !! m) → ∃ res seen', detect o idx m = Return res seen') ∧
  (∀ keys c, (∀ k, k ∈ keys → is_Some (idx !! k)) →
             is_Some (checkModules o idx keys c)) ∧
  (∀ x, x ∈ default [] modules → named x = false → ∀ k, idx !! k ≠ Some x) ∧
  (∀ reason rm, reasonModule idx reason = Some (Own rm) → named rm = true) ∧
  (∀ m p seen', detect o idx m = Return (Some p) seen' →
     ∃ ks, p = display idx <$> (m :: ks ++ [m]) ∧
           ∀ k, k ∈ m :: ks → ∃ y, idx !! k = Some y ∧ named y = true) ∧
  idx = modulesById o (List.filter named <$> modules).
Proof.
  intros idx.
  pose proof (modulesById_keyed o modules) as Hkeyed. fold idx in Hkeyed.
  assert (Hnamed : ∀ k x, idx !! k = Some x → named x = true).
  { intros k x (_ & _ & Hr)%modulesById_lookup. by eapply retained_named. }
  split; [|split; [|split; [|split; [|split]]]].
  - intros m Hm. by apply detect_returns.
  - intros keys c Hin. by apply checkModules_returns.
  - intros x _ Hx k Hk. apply Hnamed in Hk. congruence.
  - intros reason rm [k Hk]%reasonModule_lookup. by eapply Hnamed.
  - intros m p seen' Hrun.
    destruct (detect_sound o idx _ _ _ Hkeyed Hrun) as [(ks & -> & Hch & _) _].
    exists ks. split; [done|]. intros k Hk.
    assert (Hs : is_Some (idx !! k)).
    { eapply chain_indexed; [exact Hch|].
      apply elem_of_cons in Hk as [->|Hk]; apply elem_of_app; [right|left].
      - by apply list_elem_of_singleton.
      - done. }
    destruct Hs as [y Hy]. exists y. split; [done|]. by eapply Hnamed.
  - unfold idx, modulesById. destruct modules as [l|]; [|done]. simpl.
    by rewrite filter_named.
Qed.

Lemma detector_returns_on_index_witness :
  is_Some (modulesById defaults nameless_cycle !! "a.js") ∧
  ∃ res seen', detect defaults (modulesById defaults nameless_cycle) "a.js"
               = Return res seen'.
Proof.
  assert (Hm : is_Some (modulesById defaults nameless_cycle !! "a.js")).
  { eexists. vm_compute. reflexivity. }
  split; [exact Hm|].
  exact (proj1 (detector_returns_on_index defaults nameless_cycle) "a.js" Hm).
Defined.

(** C8, as stated, fails: the module with the id n of [nameless_cycle] has
    no name and lies between b.js and a.js; the search called with its id
    does not return "no cycle": it reads [reasons] of the absent
    [modulesById["n"]] and throws. *)
Lemma nameless_start_throws :
  let x := StatsModule.Build (IdString "n") None false (Some [static "a.js"]) in
  x ∈ default [] nameless_cycle ∧ StatsModule.name x = None ∧
  detect defaults (modulesById defaults nameless_cycle) "n" = TypeError ∧
  ¬ ∃ seen', detect defaults (modulesById defaults nameless_cycle) "n"
             = Return None seen'.
Proof.
  intros x.
  assert (H : detect defaults (modulesById defaults nameless_cycle) "n" = TypeError)
    by (vm_compute; reflexivity).
  split; [right; left|]. split; [done|]. split; [exact H|].
  intros (seen' & Hrun). rewrite H in Hrun. discriminate.
Qed.

(** C9.  For a detected cycle: when [onDetected] is configured and throws,
    the compilation left by the callback gets exactly one more error, the
    thrown value, and its warnings are unchanged, so no formatted message is
    produced; when it returns, nothing is added.  When no callback is
    configured, exactly one error object with the message
    [BASE_ERROR + paths.join(" -> ")] is appended, to [warnings], or to
    [errors] when [failOnError] is set. *)
Theorem cycle_reported_once (o : FullOptions) (idx : ModuleMap)
    (module : string) (paths : list string) (seen' : gset string)
    (c : Compilation) :
  detect o idx module = Return (Some paths) seen' →
  (∀ cb c' err,
     onDetected o = Some cb → cb paths c = (c', Some err) →
     checkModule o idx module c
     = Some {| errors := errors c' ++ [Thrown err]; warnings := warnings c' |}) ∧
  (∀ cb c',
     onDetected o = Some cb → cb paths c = (c', None) →
     checkModule o idx module c = Some c') ∧
  (onDetected o = None → failOnError o = false →
     checkModule o idx module c
     = Some {| errors := errors c;
               warnings := warnings c ++
                 [NewError (BASE_ERROR ++ join " -> " paths)] |}) ∧
  (onDetected o = None → failOnError o = true →
     checkModule o idx module c
     = Some {| errors := errors c ++
                 [NewError (BASE_ERROR ++ join " -> " paths)];
               warnings := warnings c |}).
Proof.
  intros Hrun. unfold checkModule, report. rewrite Hrun.
  split; [|split; [|split]].
  - intros cb c' err -> ->. done.
  - intros cb c' -> ->. done.
  - intros -> ->. done.
  - intros -> ->. done.
Qed.

Lemma cycle_reported_once_witness :
  checkModule (with_callback throwing defaults)
    (modulesById defaults two_cycle) "a.js" empty_compilation
  = Some {| errors := [Thrown "boom"]; warnings := [] |}.
Proof.
  assert (H : detect (with_callback throwing defaults)
                (modulesById defaults two_cycle) "a.js"
              = Return (Some ["a.js"; "b.js"; "a.js"]) {["a.js"; "b.js"]})
    by (vm_compute; reflexivity).
  exact (proj1 (cycle_reported_once _ _ _ _ _ empty_compilation H)
           throwing empty_compilation "boom" eq_refl eq_refl).
Defined.

(** C10.  On an index built by [apply], a path returned by the search
    started at [m] begins and ends with the name of [m] stripped of a
    leading "./", has at least three elements, and consists of stripped
    non-empty names of indexed modules only: the fall-back to the raw id is
    never taken. *)
Theorem top_level_path_names (o : FullOptions)
    (modules : option (list StatsModule.t)) (m : string)
    (p : list string) (seen' : gset string) :
  let idx := modulesById o modules in
  detect o idx m = Return (Some p) seen' →
  ∃ x n,
    idx !! m = Some x ∧ StatsModule.name x = Some n ∧ n ≠ "" ∧
    head p = normalizePath (Some n) ∧ last p = normalizePath (Some n) ∧
    (3 ≤ length p)%nat ∧
    Forall (fun e => ∃ k y n', idx !! k = Some y ∧
                               StatsModule.name y = Some n' ∧ n' ≠ "" ∧
                               normalizePath (Some n') = Some e) p.
Proof.
  intros idx Hrun.
  pose proof (modulesById_keyed o modules) as Hkeyed. fold idx in Hkeyed.
  assert (Hdisp : ∀ k, is_Some (idx !! k) →
            ∃ y n', idx !! k = Some y ∧ StatsModule.name y = Some n' ∧ n' ≠ "" ∧
                    normalizePath (Some n') = Some (display idx k)).
  { intros k [y Hy]. pose proof Hy as (_ & _ & Hr)%modulesById_lookup.
    apply retained_spec in Hr as (_ & n' & Hn & Hne & _).
    exists y, n'. repeat split; try done.
    unfold display. rewrite Hy.
    change (Some y ≫= StatsModule.name) with (StatsModule.name y). rewrite Hn.
    destruct (normalizePath_Some n') as [d Hd]. by rewrite Hd. }
  pose proof (detect_start o idx _ _ _ Hrun) as Hm.
  destruct (detect_sound o idx _ _ _ Hkeyed Hrun)
    as [(ks & -> & Hch & _ & _ & Hnil) _].
  destruct (Hdisp m Hm) as (x & n & Hx & Hn & Hne & Hnorm).
  exists x, n. split; [done|]. split; [done|]. split; [done|].
  split; [|split; [|split]].
  - rewrite fmap_cons. exact (eq_sym Hnorm).
  - rewrite app_comm_cons, fmap_app.
    change (display idx <$> [m]) with [display idx m].
    rewrite last_snoc. exact (eq_sym Hnorm).
  - rewrite length_fmap, length_cons, length_app. simpl.
    destruct ks; [done|]. simpl. lia.
  - apply Forall_fmap, Forall_forall. intros k Hk.
    destruct (Hdisp k) as (y & n' & ?); [|by exists k, y, n'].
    apply elem_of_cons in Hk as [->|Hk]; [done|].
    eapply chain_indexed; [exact Hch|done].
Qed.

Lemma top_level_path_names_witness :
  detect defaults (modulesById defaults two_cycle) "a.js"
  = Return (Some ["a.js"; "b.js"; "a.js"]) {["a.js"; "b.js"]} ∧
  (3 ≤ length ["a.js"; "b.js"; "a.js"])%nat.
Proof.
  assert (H : detect defaults (modulesById defaults two_cycle) "a.js"
              = Return (Some ["a.js"; "b.js"; "a.js"]) {["a.js"; "b.js"]})
    by (vm_compute; reflexivity).
  split; [exact H|].
  destruct (top_level_path_names defaults two_cycle "a.js" _ _ H)
    as (x & n & _ & _ & _ & _ & _ & Hlen & _).
  exact Hlen.
Defined.

(** * Further properties of the code *)

(** ** Larger indexes and fewer skipped reasons *)

Section Monotone.
Context (o1 o2 : FullOptions) (idx1 idx2 : ModuleMap).
Hypothesis Hsub : ∀ k x, idx1 !! k = Some x → idx2 !! k = Some x.
Hypothesis Hskip : ∀ r, allowAsyncCycles o2 && isDynamic r = true →
                        allowAsyncCycles o1 && isDynamic r = true.

Lemma followedModule_mono r rm :
  followedModule o1 idx1 r = Some rm → followedModule o2 idx2 r = Some rm.
Proof.
  intros (Hrm & Ht & Hd)%followedModule_Some. apply followedModule_Some.
  split; [|split; [done|]].
  - unfold reasonModule in *. destruct (truthyId (Reason.moduleId r)); [|done].
    apply getProperty_Own. by apply Hsub, getProperty_Own.
  - destruct (allowAsyncCycles o2 && isDynamic r) eqn:H2; [|done].
    rewrite Hskip in Hd by done. done.
Qed.

Lemma reasonsOf_mono a r : r ∈ reasonsOf idx1 a → r ∈ reasonsOf idx2 a.
Proof.
  unfold reasonsOf. destruct (idx1 !! a) as [x|] eqn:Ha.
  - by rewrite (Hsub _ _ Ha).
  - by intros ?%elem_of_nil.
Qed.

Lemma walk_mono a b : walk o1 idx1 a b → walk o2 idx2 a b.
Proof.
  intros (r & Hr & (rm & Hf & Hk)%followed_Some & Hi). exists r.
  split; [by apply reasonsOf_mono|]. split; [|done].
  apply followed_Some. exists rm. split; [by apply followedModule_mono|done].
Qed.

Lemma reported_mono m : reported o1 idx1 m → reported o2 idx2 m.
Proof.
  intros (c & Hr & Hne & r & rm & Hin & Hf & Hid). exists c. split.
  - revert Hr. apply rtc_subrel. apply walk_mono.
  - split; [done|]. exists r, rm.
    split; [by apply reasonsOf_mono|]. split; [by apply followedModule_mono|done].
Qed.

End Monotone.

(** ** The members of a reported cycle *)

Section Members.
Context (o : FullOptions) (idx : ModuleMap).





End Members.

(** X1.  A path reported for [m] on a built index names a simple cycle: the
    start and the modules in between are indexed and pairwise distinct, so
    the path has at most one element more than the index has modules. *)
Theorem reported_cycle_simple (o : FullOptions)
    (modules : option (list StatsModule.t)) (m : string)
    (p : list string) (seen' : gset string) :
  let idx := modulesById o modules in
  detect o idx m = Return (Some p) seen' →
  ∃ ks, p = display idx <$> (m :: ks ++ [m]) ∧ NoDup (m :: ks) ∧
        (∀ k, k ∈ m :: ks → is_Some (idx !! k)) ∧
        (length p ≤ size idx + 1)%nat.
Proof.
  intros idx Hrun.
  pose proof (modulesById_keyed o modules) as Hkeyed. fold idx in Hkeyed.
  pose proof (detect_start _ _ _ _ _ Hrun) as Hm.
  destruct (detect_sound o idx _ _ _ Hkeyed Hrun)
    as [(ks & -> & Hch & Hnd & Hnot & _) _].
  assert (Hnd' : NoDup (m :: ks)) by (by apply NoDup_cons).
  assert (Hin : ∀ k, k ∈ m :: ks → is_Some (idx !! k)).
  { intros k [->|Hk]%elem_of_cons; [done|].
    eapply chain_indexed; [exact Hch|]. apply elem_of_app. by left. }
  exists ks. split; [done|]. split; [done|]. split; [done|].
  pose proof (NoDup_indexed_length idx _ Hnd' Hin) as Hlen.
  rewrite length_fmap. cbn [length] in *. rewrite length_app. simpl. lia.
Qed.

Lemma reported_cycle_simple_witness :
  ∃ ks, ["a.js"; "b.js"; "a.js"]
        = display (modulesById defaults two_cycle) <$> ("a.js" :: ks ++ ["a.js"])
        ∧ NoDup ("a.js" :: ks).
Proof.
  destruct (reported_cycle_simple defaults two_cycle "a.js" _ _ detect_two_cycle)
    as (ks & Hp & Hnd & _).
  exists ks. split; [exact Hp|exact Hnd].
Defined.

(** X2.  The visited object a search from [m] leaves behind holds [m] and,
    besides, only indexed modules whose key is not the name of a property
    of [Object.prototype]; each of them is reached from [m] along followed
    reasons the search can descend along, those whose source does not bear
    such a name (a source that does always tests as visited).  When the
    search finds no cycle, the visited modules are exactly the modules
    reached in this way. *)
Theorem visited_set_reachable (o : FullOptions)
    (modules : option (list StatsModule.t)) (m : string)
    (res : option (list string)) (seen' : gset string) :
  let idx := modulesById o modules in
  detect o idx m = Return res seen' →
  m ∈ seen' ∧
  (∀ x, x ∈ seen' → rtc (walk o idx) m x) ∧
  (∀ x, x ∈ seen' → x ≠ m → is_Some (idx !! x) ∧ isInherited x = false) ∧
  (res = None → ∀ x, x ∈ seen' ↔ rtc (walk o idx) m x).
Proof.
  intros idx Hrun.
  pose proof (modulesById_keyed o modules) as Hkeyed. fold idx in Hkeyed.
  destruct (detect_visits o idx _ _ _ Hkeyed Hrun) as [Hin Hall].
  split; [|split; [done|split]].
  - unfold detect in Hrun. apply isCyclic_seen_mono in Hrun. set_solver.
  - intros x Hx Hne.
    destruct (rtc_inv_r _ _ (Hin x Hx)) as [->|(y & _ & Hw)]; [done|].
    split; [by eapply walk_indexed|]. by destruct Hw as (r & _ & _ & Hi).
  - intros Hres x. split; [apply Hin|by apply Hall].
Qed.

Lemma visited_set_reachable_witness :
  detect defaults (modulesById defaults prototype_cycle) "a.js"
  = Return None {["a.js"]} ∧
  ∀ x, x ∈ ({["a.js"]} : gset string) ↔
       rtc (walk defaults (modulesById defaults prototype_cycle)) "a.js" x.
Proof.
  split; [exact (proj1 detect_prototype_cycle)|].
  exact (proj2 (proj2 (proj2 (visited_set_reachable defaults prototype_cycle "a.js"
                         _ _ (proj1 detect_prototype_cycle)))) eq_refl).
Defined.



(** X4.  Setting [allowAsyncCycles] only removes reports: a module reported
    with the flag set is also reported with the flag cleared. *)
Theorem allowAsyncCycles_only_removes (o : FullOptions)
    (modules : option (list StatsModule.t)) (m : string)
    (p : list string) (seen' : gset string) :
  let idx := modulesById o modules in
  detect (with_allowAsyncCycles true o) idx m = Return (Some p) seen' →
  ∃ p' seen'', detect (with_allowAsyncCycles false o) idx m
               = Return (Some p') seen''.
Proof.
  intros idx Hrun.
  pose proof (modulesById_keyed o modules) as Hkeyed. fold idx in Hkeyed.
  pose proof (detect_start _ _ _ _ _ Hrun) as Hm.
  apply (detect_iff_reported _ idx m Hkeyed Hm).
  destruct (detect_sound _ idx _ _ _ Hkeyed Hrun) as [_ Hrep].
  revert Hrep. apply reported_mono; [done|]. intros r Hr. done.
Qed.

Lemma allowAsyncCycles_only_removes_witness :
  ∃ p' seen'', detect (with_allowAsyncCycles false defaults)
                 (modulesById defaults two_cycle) "a.js"
               = Return (Some p') seen''.
Proof.
  assert (H : detect (with_allowAsyncCycles true defaults)
                (modulesById defaults two_cycle) "a.js"
              = Return (Some ["a.js"; "b.js"; "a.js"]) {["a.js"; "b.js"]})
    by (vm_compute; reflexivity).
  exact (allowAsyncCycles_only_removes defaults two_cycle "a.js" _ _ H).
Defined.

(** X5.  With module ids that are unique as property keys, filtering more
    modules out never adds a report: if every module retained under [o1] is
    retained under [o2] and both treat dynamic imports alike, a module
    reported on the index built under [o1] is reported on the index built
    under [o2]. *)
Theorem filtering_never_adds (o1 o2 : FullOptions)
    (modules : option (list StatsModule.t)) (m : string)
    (p : list string) (seen' : gset string) :
  NoDup (keyOf <$> default [] modules) →
  (∀ x, x ∈ default [] modules → retained o1 x = true → retained o2 x = true) →
  allowAsyncCycles o1 = allowAsyncCycles o2 →
  detect o1 (modulesById o1 modules) m = Return (Some p) seen' →
  ∃ p' seen'', detect o2 (modulesById o2 modules) m = Return (Some p') seen''.
Proof.
  intros Hnd Hret Hallow Hrun.
  set (idx1 := modulesById o1 modules) in *.
  set (idx2 := modulesById o2 modules).
  pose proof (modulesById_keyed o1 modules) as Hk1. fold idx1 in Hk1.
  pose proof (modulesById_keyed o2 modules) as Hk2. fold idx2 in Hk2.
  assert (Hsub : ∀ k x, idx1 !! k = Some x → idx2 !! k = Some x).
  { intros k x (Hin & <- & Hr)%modulesById_lookup.
    apply modulesById_unique; auto. }
  pose proof (detect_start _ _ _ _ _ Hrun) as [xm Hm].
  apply (detect_iff_reported o2 idx2 m Hk2); [by eauto|].
  destruct (detect_sound o1 idx1 _ _ _ Hk1 Hrun) as [_ Hrep].
  revert Hrep. apply reported_mono; [done|]. intros r. by rewrite Hallow.
Qed.

Lemma filtering_never_adds_witness :
  detect without_c (modulesById without_c star_cycle) "a.js"
  = Return (Some ["a.js"; "b.js"; "a.js"]) {["a.js"; "b.js"]} ∧
  ∃ p' seen'', detect defaults (modulesById defaults star_cycle) "a.js"
               = Return (Some p') seen''.
Proof.
  assert (Hnd : NoDup (keyOf <$> default [] star_cycle)).
  { vm_compute. repeat constructor; set_solver. }
  assert (Hret : ∀ x, x ∈ default [] star_cycle →
                   retained without_c x = true → retained defaults x = true).
  { intros x Hx _. simpl in Hx.
    repeat (apply elem_of_cons in Hx as [->|Hx]; [reflexivity|]).
    by apply elem_of_nil in Hx. }
  assert (H : detect without_c (modulesById without_c star_cycle) "a.js"
              = Return (Some ["a.js"; "b.js"; "a.js"]) {["a.js"; "b.js"]})
    by (vm_compute; reflexivity).
  split; [exact H|].
  exact (filtering_never_adds without_c defaults star_cycle "a.js" _ _
           Hnd Hret eq_refl H).
Defined.

(** X6.  [isCyclic] reads [modulesById[currentModule].reasons] without a
    guard.  Called on a key that is neither a key of the index nor the name
    of a property of [Object.prototype] it throws a [TypeError]; called on
    such a name that is not a key, it finds the inherited value, which has
    no [reasons], marks the name and returns no cycle.  On a built index a
    search throws iff its start is neither indexed nor such a name, and no
    call on an indexed module throws. *)
Theorem start_off_index (o : FullOptions) :
  (∀ idx fuel init cur seen,
     idx !! cur = None →
     isCyclic o (S fuel) init cur idx seen
     = if isInherited cur then Return None ({[cur]} ∪ seen) else TypeError) ∧
  (∀ modules m,
     detect o (modulesById o modules) m = TypeError ↔
     modulesById o modules !! m = None ∧ isInherited m = false) ∧
  (∀ modules fuel init cur seen,
     is_Some (modulesById o modules !! cur) →
     isCyclic o fuel init cur (modulesById o modules) seen ≠ TypeError).
Proof.
  assert (H1 : ∀ idx fuel init cur seen,
            idx !! cur = None →
            isCyclic o (S fuel) init cur idx seen
            = if isInherited cur then Return None ({[cur]} ∪ seen) else TypeError).
  { intros idx fuel init cur seen Hcur. cbn [isCyclic].
    unfold getProperty, isInherited. rewrite Hcur.
    by destruct (inherited cur). }
  split; [exact H1|split].
  - intros modules m. split.
    + intros Hrun. destruct (modulesById o modules !! m) as [x|] eqn:Hm.
      * exfalso. revert Hrun. apply isCyclic_no_TypeError.
        -- apply modulesById_keyed.
        -- exists (Own x). by apply getProperty_Own.
      * split; [done|]. unfold detect in Hrun. rewrite H1 in Hrun by done.
        by destruct (isInherited m).
    + intros [Hm Hi]. unfold detect. rewrite H1 by done. by rewrite Hi.
  - intros modules fuel init cur seen [x Hcur].
    apply isCyclic_no_TypeError; [apply modulesById_keyed|].
    exists (Own x). by apply getProperty_Own.
Qed.

Lemma start_off_index_witness :
  isCyclic defaults 1 "a.js" "toString" (modulesById defaults two_cycle) ∅
  = Return None ({["toString"]} ∪ ∅) ∧
  isCyclic defaults 1 "a.js" "x.js" (modulesById defaults two_cycle) ∅ = TypeError.
Proof.
  split.
  - apply (proj1 (start_off_index defaults)
             (modulesById defaults two_cycle) 0%nat "a.js" "toString" ∅).
    vm_compute. reflexivity.
  - apply (proj1 (start_off_index defaults)
             (modulesById defaults two_cycle) 0%nat "a.js" "x.js" ∅).
    vm_compute. reflexivity.
Defined.

(** X7.  When several retained modules carry the same id, the last one in
    [stats.modules] is the one the index holds: a retained module is found
    under its id as soon as no retained module after it has that id. *)
Theorem duplicate_id_last_wins (o : FullOptions)
    (l1 l2 : list StatsModule.t) (x : StatsModule.t) :
  retained o x = true →
  (∀ y, y ∈ l2 → retained o y = true → keyOf y ≠ keyOf x) →
  modulesById o (Some (l1 ++ x :: l2)%list) !! keyOf x = Some x.
Proof. apply modulesById_later. Qed.

Lemma duplicate_id_last_wins_witness :
  modulesById defaults duplicate_ids !! "a.js" = Some (mk "a.js" []) ∧
  detect defaults (modulesById defaults duplicate_ids) "a.js"
  = Return None {["a.js"]}.
Proof.
  split; [|vm_compute; reflexivity].
  apply (duplicate_id_last_wins defaults
           [mk "a.js" [static "b.js"]; mk "b.js" [static "a.js"]] []
           (mk "a.js" [])).
  - reflexivity.
  - intros y Hy. by apply elem_of_nil in Hy.
Defined.

(** ** The loop of [apply] *)

Lemma checkModules_no_callback (o : FullOptions) (idx : ModuleMap)
    (keys : list string) :
  keyed idx → onDetected o = None →
  (∀ k, k ∈ keys → is_Some (idx !! k)) →
  ∀ c, checkModules o idx keys c
       = Some (if failOnError o
               then {| errors := errors c ++ (cycleMessage <$> cyclePaths o idx keys);
                       warnings := warnings c |}
               else {| errors := errors c;
                       warnings := warnings c ++
                                   (cycleMessage <$> cyclePaths o idx keys) |}).
Proof.
  intros Hkeyed Hcb. induction keys as [|k keys IH]; intros Hin c.
  { simpl. rewrite !app_nil_r. by destruct c, (failOnError o). }
  assert (Hk : is_Some (idx !! k)) by (apply Hin; left).
  assert (Hin' : ∀ k', k' ∈ keys → is_Some (idx !! k')).
  { intros k' Hk'. apply Hin. by right. }
  destruct (detect_returns o idx k Hkeyed Hk) as (res & seen' & Hrun).
  cbn [checkModules]. unfold checkModule, cyclePaths. cbn [omap list_omap].
  fold (cyclePaths o idx keys). rewrite Hrun. destruct res as [p|].
  - rewrite (IH Hin'). unfold report. rewrite Hcb. rewrite fmap_cons.
    fold (cycleMessage p).
    destruct (failOnError o); simpl; by rewrite <- (assoc_L (++)).
  - by rewrite (IH Hin').
Qed.

Lemma cyclePaths_reported (o : FullOptions) (idx : ModuleMap) (keys : list string) :
  keyed idx → (∀ k, k ∈ keys → is_Some (idx !! k)) →
  ∃ cyc, cyc `sublist_of` keys ∧
         (∀ k, k ∈ cyc ↔ k ∈ keys ∧ reported o idx k) ∧
         length (cyclePaths o idx keys) = length cyc.
Proof.
  intros Hkeyed. induction keys as [|k keys IH]; intros Hin.
  { exists []. split; [done|]. split; [|done].
    intros k. split; [by intros ?%elem_of_nil|by intros [?%elem_of_nil _]]. }
  assert (Hk : is_Some (idx !! k)) by (apply Hin; left).
  destruct IH as (cyc & Hsub & Hiff & Hlen).
  { intros k' Hk'. apply Hin. by right. }
  destruct (detect_iff_reported o idx k Hkeyed Hk) as [Hyes Hno].
  destruct (detect_returns o idx k Hkeyed Hk) as (res & seen' & Hrun).
  unfold cyclePaths. cbn [omap list_omap]. fold (cyclePaths o idx keys).
  rewrite Hrun. destruct res as [p|].
  - assert (Hc : reported o idx k) by (apply Hyes; eauto).
    exists (k :: cyc). split; [by apply sublist_skip|]. split.
    + intros k'. rewrite !elem_of_cons, Hiff. naive_solver.
    + simpl. by rewrite Hlen.
  - assert (Hc : ¬ reported o idx k) by (apply Hno; eauto).
    exists cyc. split; [by apply sublist_cons|]. split; [|done].
    intros k'. rewrite elem_of_cons, Hiff. naive_solver.
Qed.

(** X8.  Without an [onDetected] callback the loop of [apply], run over
    any list of keys of a built index, never fails, keeps what the
    compilation already held, and appends one message per reported path, in
    the order of the keys, to [warnings], or to [errors] when [failOnError]
    is set, leaving the other list alone.  The number of messages is the
    number of listed modules from which the search reaches a reason that
    closes back to them; when the indexed ids are strings that do not name
    a property of [Object.prototype], these are the listed modules that lie
    on a cycle.  On an acyclic graph the compilation is left as it was. *)
Theorem loop_reports (o : FullOptions)
    (modules : option (list StatsModule.t)) (keys : list string)
    (c : Compilation) :
  let idx := modulesById o modules in
  onDetected o = None →
  (∀ k, k ∈ keys → is_Some (idx !! k)) →
  checkModules o idx keys c
  = Some (if failOnError o
          then {| errors := errors c ++ (cycleMessage <$> cyclePaths o idx keys);
                  warnings := warnings c |}
          else {| errors := errors c;
                  warnings := warnings c ++
                              (cycleMessage <$> cyclePaths o idx keys) |}) ∧
  (∃ cyc, cyc `sublist_of` keys ∧
          (∀ k, k ∈ cyc ↔ k ∈ keys ∧ reported o idx k) ∧
          (plain idx → ∀ k, k ∈ cyc ↔ k ∈ keys ∧ on_cycle o idx k) ∧
          length (cyclePaths o idx keys) = length cyc) ∧
  (acyclic o idx → checkModules o idx keys c = Some c).
Proof.
  intros idx Hcb Hin.
  pose proof (modulesById_keyed o modules) as Hkeyed. fold idx in Hkeyed.
  pose proof (checkModules_no_callback o idx keys Hkeyed Hcb Hin c) as Hrun.
  pose proof (cyclePaths_reported o idx keys Hkeyed Hin) as (cyc & Hsub & Hiff & Hlen).
  split; [done|]. split.
  - exists cyc. split; [done|]. split; [done|]. split; [|done].
    intros Hp k. rewrite Hiff. split; intros [Hk Hc]; (split; [done|]).
    + by apply reported_on_cycle.
    + by apply on_cycle_reported.
  - intros Hac. rewrite Hrun.
    assert (cyc = []) as ->.
    { destruct cyc as [|k cyc]; [done|].
      destruct (proj1 (Hiff k)) as [_ Hc]; [left|].
      apply reported_on_cycle in Hc. by destruct (Hac k). }
    destruct (cyclePaths o idx keys); [|done].
    rewrite fmap_nil, !app_nil_r. by destruct c, (failOnError o).
Qed.

Lemma loop_reports_witness :
  checkModules defaults (modulesById defaults three_cycle)
    ["a.js"; "b.js"; "c.js"; "d.js"] empty_compilation
  = Some {| errors := [];
            warnings := cycleMessage <$> [["a.js"; "b.js"; "c.js"; "a.js"];
                                          ["b.js"; "c.js"; "a.js"; "b.js"];
                                          ["c.js"; "a.js"; "b.js"; "c.js"]] |}.
Proof.
  assert (Hin : ∀ k, k ∈ ["a.js"; "b.js"; "c.js"; "d.js"] →
                     is_Some (modulesById defaults three_cycle !! k)).
  { intros k Hk.
    repeat (apply elem_of_cons in Hk as [->|Hk];
            [eexists; vm_compute; reflexivity|]).
    by apply elem_of_nil in Hk. }
  rewrite (proj1 (loop_reports defaults three_cycle _ empty_compilation
                    eq_refl Hin)).
  vm_compute. reflexivity.
Defined.

(** ** Dynamic imports and the options *)

Lemma prefix_spec a b : String.prefix a b = true ↔ ∃ post, b = a ++ post.
Proof.
  revert b. induction a as [|x a IH]; intros b.
  - split; [|by destruct b]. intros _. by exists b.
  - destruct b as [|y b]; simpl.
    + split; [done|]. by intros [post ?].
    + destruct (Ascii.ascii_dec x y) as [->|Hne].
      * rewrite IH. split; intros [post H]; exists post.
        -- by rewrite H.
        -- change (String y b = String y (a ++ post)) in H. congruence.
      * split; [done|]. intros [post H].
        change (String y b = String x (a ++ post)) in H. congruence.
Qed.

Lemma includes_spec needle hay :
  includes needle hay = true ↔ ∃ pre post, hay = pre ++ needle ++ post.
Proof.
  induction hay as [|y hay IH]; cbn [includes]; rewrite orb_true_iff, prefix_spec.
  - split.
    + intros [[post H]|?]; [|done]. by exists "", post.
    + intros (pre & post & H). left. destruct pre; [by exists post|done].
  - rewrite IH. split.
    + intros [[post H]|(pre & post & H)].
      * by exists "", post.
      * exists (String y pre), post. by rewrite H.
    + intros (pre & post & H). destruct pre as [|x pre].
      * left. by exists post.
      * right. exists pre, post.
        change (String y hay = String x (pre ++ needle ++ post)) in H.
        congruence.
Qed.

(** X11.  A reason counts as a dynamic import exactly when its type is
    present and contains "dynamic import" or "import()" somewhere; with
    [allowAsyncCycles] set such a reason is never followed, whatever module
    it names. *)
Theorem dynamic_reason_spec (reason : Reason.t) :
  (isDynamic reason = true ↔
   ∃ t pre post, Reason.type reason = Some t ∧
                 (t = pre ++ "dynamic import" ++ post ∨
                  t = pre ++ "import()" ++ post)) ∧
  (∀ o idx, allowAsyncCycles o = true → isDynamic reason = true →
            followed o idx reason = None).
Proof.
  split.
  - unfold isDynamic, re_dynamic. destruct (Reason.type reason) as [t|].
    + rewrite orb_true_iff, !includes_spec. split.
      * intros [(pre & post & H)|(pre & post & H)]; exists t, pre, post; auto.
      * intros (t' & pre & post & [= <-] & [H|H]); [left|right]; eauto.
    + split; [done|]. by intros (t & _ & _ & ? & _).
  - intros o idx Ha Hd. apply followed_None, followedModule_None.
    destruct (reasonModule idx reason) as [[rm|]|]; [|done..].
    right. by rewrite Ha, Hd.
Qed.

Lemma dynamic_reason_spec_witness :
  isDynamic (Reason.Build (IdString "b.js") (Some "import() context element")) = true.
Proof.
  apply (proj1 (dynamic_reason_spec _)).
  exists "import() context element", "", " context element". split; [done|].
  by right.
Defined.

Lemma loop_options (o1 o2 : FullOptions) (idx : ModuleMap)
    (self1 self2 : string → gset string → Completion) init cur nm rs :
  (∀ r, r ∈ rs → allowAsyncCycles o1 && isDynamic r
                 = allowAsyncCycles o2 && isDynamic r) →
  (∀ k s, self1 k s = self2 k s) →
  ∀ seen, isCyclic_loop o1 self1 init cur nm idx rs seen
          = isCyclic_loop o2 self2 init cur nm idx rs seen.
Proof.
  intros Hrs Hself. induction rs as [|r rs IH]; intros seen; [done|].
  assert (IH' := IH (fun r' Hr' => Hrs r' (list_elem_of_further _ _ _ Hr'))).
  cbn [isCyclic_loop]. rewrite <- (Hrs r) by left.
  destruct (reasonModule idx r) as [[rm|]|]; [|done..].
  destruct (negb (truthyId (StatsModule.id rm))); [done|].
  destruct (allowAsyncCycles o1 && isDynamic r); [done|].
  destruct (inObject seen (keyOf rm)).
  - by rewrite IH'.
  - rewrite Hself.
    destruct (self2 (keyOf rm) seen) as [| |[p|] s']; try done.
Qed.

(** X12.  The search consults the options only through [allowAsyncCycles],
    and only on dynamic-import reasons: two option records that agree on
    [allowAsyncCycles && isDynamic reason] for every reason of every indexed
    module give the same result for every call.  So [include], [exclude],
    [failOnError] and [onDetected] never influence a search, and the flag
    makes no difference on an index without dynamic-import reasons. *)
Theorem search_uses_allowAsyncCycles_only (o1 o2 : FullOptions) (idx : ModuleMap) :
  (∀ k x r, idx !! k = Some x → r ∈ default [] (StatsModule.reasons x) →
            allowAsyncCycles o1 && isDynamic r
            = allowAsyncCycles o2 && isDynamic r) →
  ∀ fuel init cur seen,
    isCyclic o1 fuel init cur idx seen = isCyclic o2 fuel init cur idx seen.
Proof.
  intros Hsame fuel. induction fuel as [|fuel IH]; intros init cur seen; [done|].
  cbn [isCyclic]. destruct (getProperty idx cur) as [[cm|nm]|] eqn:Hcm; [|done..].
  apply getProperty_Own in Hcm.
  apply loop_options; [|by intros k s].
  intros r Hr. by eapply Hsame.
Qed.

Lemma search_uses_allowAsyncCycles_only_witness :
  detect (with_allowAsyncCycles true defaults) (modulesById defaults two_cycle) "a.js"
  = detect defaults (modulesById defaults two_cycle) "a.js".
Proof.
  apply (search_uses_allowAsyncCycles_only
           (with_allowAsyncCycles true defaults) defaults).
  intros k x r Hx Hr.
  apply modulesById_lookup in Hx as (Hin & _ & _). simpl in Hin.
  repeat (apply elem_of_cons in Hin as [->|Hin];
          [simpl in Hr;
           repeat (apply elem_of_cons in Hr as [->|Hr]; [reflexivity|]);
           by apply elem_of_nil in Hr|]).
  by apply elem_of_nil in Hin.
Defined.

(** ** What the search finds, exactly *)

(** X13.  On an index built by [apply] and from an indexed start [m], the
    search returns a path exactly when it can reach, descending along
    followed reasons whose source does not bear the name of a property of
    [Object.prototype], another module with a followed reason whose source
    has the string [m] as its id; it returns no path otherwise.  Every
    report is a true positive: [m] then lies on a cycle of followed
    reasons, which the returned path spells out; so on an acyclic graph
    nothing is reported. *)
Theorem detection_iff_reported (o : FullOptions)
    (modules : option (list StatsModule.t)) (m : string) :
  let idx := modulesById o modules in
  is_Some (idx !! m) →
  (reported o idx m ↔ ∃ p seen', detect o idx m = Return (Some p) seen') ∧
  (¬ reported o idx m ↔ ∃ seen', detect o idx m = Return None seen') ∧
  (reported o idx m → on_cycle o idx m) ∧
  (acyclic o idx → ∃ seen', detect o idx m = Return None seen') ∧
  (∀ p seen', detect o idx m = Return (Some p) seen' →
     ∃ ks, p = display idx <$> (m :: ks ++ [m]) ∧ chain o idx m (ks ++ [m])).
Proof.
  intros idx Hm.
  pose proof (modulesById_keyed o modules) as Hkeyed. fold idx in Hkeyed.
  destruct (detect_iff_reported o idx m Hkeyed Hm) as [Hyes Hno].
  split; [done|]. split; [done|]. split; [apply reported_on_cycle|]. split.
  - intros Hac. apply Hno. intros Hr%reported_on_cycle. by apply (Hac m).
  - intros p seen' Hrun.
    destruct (detect_sound o idx _ _ _ Hkeyed Hrun) as [(ks & ? & ? & _) _]. eauto.
Qed.

Lemma detection_iff_reported_witness :
  is_Some (modulesById defaults prototype_cycle !! "constructor") ∧
  reported defaults (modulesById defaults prototype_cycle) "constructor".
Proof.
  assert (H : is_Some (modulesById defaults prototype_cycle !! "constructor")).
  { eexists. vm_compute. reflexivity. }
  split; [exact H|].
  apply (proj1 (detection_iff_reported defaults prototype_cycle "constructor" H)).
  do 2 eexists. exact (proj2 detect_prototype_cycle).
Defined.

(** X14.  When every indexed id is a string that does not name a property
    of [Object.prototype], the search started at an indexed module [m]
    returns a path iff [m] lies on a cycle of followed reasons between
    indexed modules, and returns no path iff it does not.  Lying on a cycle
    is the same whether self-references count as edges or not: [m]
    reaches, and is reached from, another module. *)
Theorem string_ids_detection_iff_cycle (o : FullOptions)
    (modules : option (list StatsModule.t)) (m : string) :
  let idx := modulesById o modules in
  plain idx → is_Some (idx !! m) →
  (on_cycle o idx m ↔ ∃ p seen', detect o idx m = Return (Some p) seen') ∧
  (¬ on_cycle o idx m ↔ ∃ seen', detect o idx m = Return None seen') ∧
  (on_cycle o idx m ↔
     ∃ c, c ≠ m ∧ rtc (link o idx) m c ∧ rtc (link o idx) c m).
Proof.
  intros idx Hp Hm.
  destruct (detect_iff_cycle o idx m Hp Hm) as [Hyes Hno].
  split; [done|]. split; [done|]. apply on_cycle_alt.
Qed.

Lemma string_ids_detection_iff_cycle_witness :
  plain (modulesById defaults two_cycle) ∧
  is_Some (modulesById defaults two_cycle !! "a.js") ∧
  on_cycle defaults (modulesById defaults two_cycle) "a.js".
Proof.
  assert (Hp : plain (modulesById defaults two_cycle)).
  { apply plain_built. repeat (constructor; [by eexists|]). constructor. }
  assert (H : is_Some (modulesById defaults two_cycle !! "a.js")).
  { eexists. vm_compute. reflexivity. }
  split; [exact Hp|]. split; [exact H|].
  apply (proj1 (string_ids_detection_iff_cycle defaults two_cycle "a.js" Hp H)).
  do 2 eexists. apply detect_two_cycle.
Defined.

(** X15.  A module whose id is not a string is never reported: the search
    started at its key returns no path, whatever cycles it lies on, since
    no id is [===] to that key. *)
Theorem non_string_id_never_reported (o : FullOptions)
    (modules : option (list StatsModule.t)) (m : string) (x : StatsModule.t) :
  let idx := modulesById o modules in
  idx !! m = Some x → (∀ s, StatsModule.id x ≠ IdString s) →
  ∃ seen', detect o idx m = Return None seen'.
Proof.
  intros idx Hx Hid.
  pose proof (modulesById_keyed o modules) as Hkeyed. fold idx in Hkeyed.
  apply (detect_iff_reported o idx m Hkeyed); [by eauto|].
  intros (c & _ & _ & r & rm & _ & Hf & Hrm).
  pose proof (followedModule_indexed o idx _ _ Hkeyed Hf) as Hl.
  unfold keyOf in Hl. rewrite Hrm in Hl. simpl in Hl.
  rewrite Hx in Hl. injection Hl as ->. by apply (Hid m).
Qed.

Lemma non_string_id_never_reported_witness :
  on_cycle defaults (modulesById defaults numeric_cycle) "670" ∧
  ∃ seen', detect defaults (modulesById defaults numeric_cycle) "670"
           = Return None seen'.
Proof.
  split.
  - apply (tc_l _ "670" "899" "670"); [|apply tc_once].
    + split; [done|]. exists (staticn 899). split; [|vm_compute; reflexivity].
      vm_compute. right. left.
    + split; [done|]. exists (staticn 670). split; [|vm_compute; reflexivity].
      vm_compute. left.
  - apply (non_string_id_never_reported defaults numeric_cycle "670"
             (mkn 670 "a.js" [entry; staticn 899])).
    + vm_compute. reflexivity.
    + intros s. discriminate.
Defined.

(** X16.  When every indexed id is a string that does not name a property
    of [Object.prototype] and every cycle through [m] needs a
    dynamic-import reason, that is, [m] lies on a cycle if all reasons
    count but on none once the dynamic ones are left out, the search
    reports no cycle with [allowAsyncCycles = true] and reports one with
    [allowAsyncCycles = false], on the same index. *)
Theorem string_ids_async_cycles (o : FullOptions)
    (modules : option (list StatsModule.t)) (m : string) :
  let idx := modulesById o modules in
  plain idx → is_Some (idx !! m) →
  on_cycle (with_allowAsyncCycles false o) idx m →
  ¬ on_cycle (with_allowAsyncCycles true o) idx m →
  (∃ seen', detect (with_allowAsyncCycles true o) idx m = Return None seen') ∧
  (∃ p seen', detect (with_allowAsyncCycles false o) idx m
              = Return (Some p) seen') ∧
  modulesById (with_allowAsyncCycles true o) modules = idx ∧
  modulesById (with_allowAsyncCycles false o) modules = idx.
Proof.
  intros idx Hp Hm Hyes Hno.
  split; [|split; [|done]].
  - by apply (detect_iff_cycle (with_allowAsyncCycles true o) idx m Hp Hm).
  - by apply (detect_iff_cycle (with_allowAsyncCycles false o) idx m Hp Hm).
Qed.

Lemma string_ids_async_cycles_witness :
  (∃ seen', detect (with_allowAsyncCycles true defaults)
              (modulesById defaults async_cycle) "a.js" = Return None seen') ∧
  (∃ p seen', detect (with_allowAsyncCycles false defaults)
                (modulesById defaults async_cycle) "a.js" = Return (Some p) seen').
Proof.
  assert (Hp : plain (modulesById defaults async_cycle)).
  { apply plain_built. repeat (constructor; [by eexists|]). constructor. }
  assert (Hm : is_Some (modulesById defaults async_cycle !! "a.js")).
  { eexists. vm_compute. reflexivity. }
  assert (Hyes : on_cycle (with_allowAsyncCycles false defaults)
                   (modulesById defaults async_cycle) "a.js").
  { apply (detect_iff_cycle _ _ _ Hp Hm).
    do 2 eexists. apply detect_async_cycle_reported. }
  assert (Hno : ¬ on_cycle (with_allowAsyncCycles true defaults)
                  (modulesById defaults async_cycle) "a.js").
  { apply (detect_iff_cycle _ _ _ Hp Hm).
    eexists. apply detect_async_cycle_allowed. }
  destruct (string_ids_async_cycles defaults async_cycle "a.js" Hp Hm Hyes Hno)
    as (H1 & H2 & _).
  split; [exact H1|exact H2].
Defined.

(** ** The [Map]-based implementation *)

#[local] Instance IdString_inj : Inj (=) (=) IdString.
Proof. by intros s1 s2 [= ->]. Qed.

Example map_detect_numeric_cycle :
  MapBased.detect defaults (MapBased.modulesById defaults numeric_cycle) (IdNumber 670)
  = MapBased.Return (Some [IdString "a.js"; IdString "b.js"; IdString "a.js"])
      {[IdNumber 670; IdNumber 899]}.
Proof. vm_compute. reflexivity. Qed.

Section MapBuilder.
Context (o : FullOptions).

Lemma map_modulesById_snoc l y :
  MapBased.modulesById o (Some (l ++ [y])%list)
  = if retained o y
    then <[StatsModule.id y := y]> (MapBased.modulesById o (Some l))
    else MapBased.modulesById o (Some l).
Proof. unfold MapBased.modulesById. cbn [default from_option id]. by rewrite foldl_app. Qed.

Lemma map_keys_snoc l y :
  MapBased.keys o (Some (l ++ [y])%list)
  = if retained o y
    then if bool_decide (StatsModule.id y ∈ MapBased.keys o (Some l))
         then MapBased.keys o (Some l)
         else (MapBased.keys o (Some l) ++ [StatsModule.id y])%list
    else MapBased.keys o (Some l).
Proof. unfold MapBased.keys. cbn [default from_option id]. by rewrite foldl_app. Qed.

Lemma map_keys_elem modules k :
  k ∈ MapBased.keys o modules ↔ is_Some (MapBased.modulesById o modules !! k).
Proof.
  destruct modules as [l|].
  2:{ change (MapBased.modulesById o None) with (∅ : MapBased.ModuleMap).
      rewrite lookup_empty. split; [by intros ?%elem_of_nil|by intros [? ?]]. }
  induction l as [|y l IH] using rev_ind.
  { change (MapBased.modulesById o (Some [])) with (∅ : MapBased.ModuleMap).
    rewrite lookup_empty. split; [by intros ?%elem_of_nil|by intros [? ?]]. }
  rewrite map_keys_snoc, map_modulesById_snoc. destruct (retained o y); [|done].
  destruct (decide (StatsModule.id y = k)) as [->|Hne].
  - rewrite lookup_insert_eq. split; [eauto|]. intros _. case_bool_decide; [done|].
    apply elem_of_app. right. left.
  - rewrite lookup_insert_ne by done. rewrite <- IH. case_bool_decide; [done|].
    rewrite elem_of_app, list_elem_of_singleton. naive_solver.
Qed.

Lemma map_keys_NoDup modules : NoDup (MapBased.keys o modules).
Proof.
  destruct modules as [l|]; [|constructor].
  induction l as [|y l IH] using rev_ind; [constructor|].
  rewrite map_keys_snoc. destruct (retained o y); [|done].
  case_bool_decide; [done|]. apply NoDup_app. split; [done|].
  split; [|apply NoDup_singleton].
  intros k Hk ->%list_elem_of_singleton. done.
Qed.

(** On string ids the [Map] is the index of [src/index.ts], key by key. *)
Lemma map_modulesById_kmap modules :
  stringIds o modules →
  MapBased.modulesById o modules = kmap IdString (modulesById o modules).
Proof.
  destruct modules as [l|]; [|intros _; symmetry; apply kmap_empty].
  induction l as [|y l IH] using rev_ind; intros Hs.
  { symmetry. apply kmap_empty. }
  rewrite map_modulesById_snoc, modulesById_snoc.
  assert (Hl : stringIds o (Some l)).
  { intros x Hx. apply Hs. apply elem_of_app. by left. }
  destruct (retained o y) eqn:Hy; [|by apply IH].
  destruct (Hs y) as [(s & Hid & _) _]; [apply elem_of_app; right; left|done|].
  rewrite kmap_insert, <- (IH Hl); [|apply _]. unfold keyOf. by rewrite Hid.
Qed.

End MapBuilder.

Section MapSearch.
Context (o : FullOptions) (mp : MapBased.ModuleMap).
Implicit Types (self : JsId → gset JsId → MapBased.Completion).

Lemma map_loop_mono self init cur nm :
  (∀ k s res s', self k s = MapBased.Return res s' → s ⊆ s') →
  ∀ rs seen res seen',
    MapBased.isCyclic_loop o self init cur nm mp rs seen = MapBased.Return res seen' →
    seen ⊆ seen'.
Proof.
  intros Hself rs. induction rs as [|r rs IH]; intros seen res seen' Hrun.
  { by injection Hrun as <- <-. }
  cbn [MapBased.isCyclic_loop] in Hrun.
  destruct (negb (truthyId (Reason.moduleId r)) ||
            negb (bool_decide (is_Some (mp !! Reason.moduleId r)))); [eauto|].
  destruct (allowAsyncCycles o && isDynamic r); [eauto|].
  destruct (bool_decide (Reason.moduleId r = init) && negb (bool_decide (cur = init))).
  { by injection Hrun as <- <-. }
  destruct (self (Reason.moduleId r) seen) as [|[p|] s'] eqn:Hcall; [done| |].
  - injection Hrun as <- <-. eauto.
  - etrans; [by eapply Hself|]. eauto.
Qed.

Lemma map_isCyclic_mono fuel init cur seen res seen' :
  MapBased.isCyclic o fuel init cur mp seen = MapBased.Return res seen' →
  {[cur]} ∪ seen ⊆ seen'.
Proof.
  revert init cur seen res seen'.
  induction fuel as [|fuel IH]; intros init cur seen res seen' Hrun; [done|].
  cbn [MapBased.isCyclic] in Hrun. case_bool_decide as Hin.
  - injection Hrun as <- <-. set_solver.
  - eapply map_loop_mono in Hrun; [done|].
    intros k s res' s' Hcall. apply IH in Hcall. set_solver.
Qed.

(** The fuel is never exhausted: every call that does more than return at
    once marks a key of the [Map] that was not marked. *)
Lemma map_loop_no_timeout self init cur nm fuel :
  (∀ k s, is_Some (mp !! k) → (size (dom mp ∖ s) < fuel)%nat →
          self k s ≠ MapBased.Timeout) →
  (∀ k s res s', self k s = MapBased.Return res s' → s ⊆ s') →
  ∀ rs seen,
    (size (dom mp ∖ seen) < fuel)%nat →
    MapBased.isCyclic_loop o self init cur nm mp rs seen ≠ MapBased.Timeout.
Proof.
  intros Hself Hmono rs. induction rs as [|r rs IH]; intros seen Hsize; [done|].
  cbn [MapBased.isCyclic_loop].
  destruct (negb (truthyId (Reason.moduleId r)) ||
            negb (bool_decide (is_Some (mp !! Reason.moduleId r)))) eqn:Hskip;
    [eauto|].
  apply orb_false_iff in Hskip as [_ Hhas%negb_false_iff%bool_decide_eq_true].
  destruct (allowAsyncCycles o && isDynamic r); [eauto|].
  destruct (bool_decide (Reason.moduleId r = init) && negb (bool_decide (cur = init)));
    [done|].
  destruct (self (Reason.moduleId r) seen) as [|[p|] s'] eqn:Hcall; [|done|].
  - by apply Hself in Hcall.
  - apply IH. eapply Nat.le_lt_trans; [|exact Hsize].
    apply subseteq_size. apply Hmono in Hcall. set_solver.
Qed.

Lemma map_isCyclic_no_timeout fuel :
  ∀ init cur seen,
    (size (dom mp ∖ seen) < fuel)%nat →
    MapBased.isCyclic o fuel init cur mp seen ≠ MapBased.Timeout.
Proof.
  induction fuel as [|fuel IH]; intros init cur seen Hsize; [lia|].
  cbn [MapBased.isCyclic]. case_bool_decide as Hin; [done|].
  destruct (mp !! cur) as [cm|] eqn:Hcm; [|done].
  assert (Hlt : (size (dom mp ∖ ({[cur]} ∪ seen)) < size (dom mp ∖ seen))%nat).
  { apply subset_size. apply elem_of_dom_2 in Hcm. set_solver. }
  apply (map_loop_no_timeout _ _ _ _ fuel).
  - intros k s _ Hs. by apply IH.
  - intros k s res s' Hcall. apply map_isCyclic_mono in Hcall. set_solver.
  - lia.
Qed.

Lemma map_detect_returns k :
  ∃ res seen', MapBased.detect o mp k = MapBased.Return res seen'.
Proof.
  destruct (MapBased.detect o mp k) as [|res seen'] eqn:Hrun; [|eauto].
  exfalso. revert Hrun. apply map_isCyclic_no_timeout.
  assert (H : (size (dom mp ∖ (∅ : gset JsId)) ≤ size (dom mp))%nat)
    by (apply subseteq_size; set_solver).
  rewrite size_dom in H. lia.
Qed.

(** The guard of the loop never holds on keys that are pairwise distinct. *)
Lemma map_apply_loop_unguarded callback keys :
  NoDup keys →
  ∀ checked c,
    (∀ k, k ∈ keys → k ∉ checked) →
    MapBased.apply_loop o callback mp keys checked c
    = MapBased.unguarded_loop o callback mp keys c.
Proof.
  induction 1 as [|k keys Hk Hnd IH]; intros checked c Hfresh; [done|].
  cbn [MapBased.apply_loop MapBased.unguarded_loop].
  rewrite bool_decide_eq_false_2 by (apply Hfresh; left).
  destruct (MapBased.detect o mp k) as [|[p|] s']; [done| |].
  - apply IH. intros k' Hk'. assert (k' ∉ checked) by (apply Hfresh; by right).
    set_solver.
  - apply IH. intros k' Hk'. apply Hfresh. by right.
Qed.

Lemma map_unguarded_loop_returns callback keys c :
  is_Some (MapBased.unguarded_loop o callback mp keys c).
Proof.
  revert c. induction keys as [|k keys IH]; intros c; [by eexists|].
  cbn [MapBased.unguarded_loop].
  destruct (map_detect_returns k) as ([p|] & s' & ->); apply IH.
Qed.

End MapSearch.

(** ** The two implementations on string ids *)

Lemma nameOr_string nm k :
  MapBased.nameOr nm (IdString k) = IdString (nullish (normalizePath nm) k).
Proof. unfold MapBased.nameOr, nullish. by destruct (normalizePath nm). Qed.

Lemma elem_of_asMap k (s : gset string) :
  IdString k ∈ (set_map IdString s : gset JsId) ↔ k ∈ s.
Proof. rewrite elem_of_map. split; [by intros (k' & [= ->] & ?)|eauto]. Qed.

Lemma asMap_insert k (s : gset string) :
  (set_map IdString ({[k]} ∪ s) : gset JsId) = {[IdString k]} ∪ set_map IdString s.
Proof. by rewrite set_map_union_L, set_map_singleton_L. Qed.

Lemma lookup_asMap (idx : ModuleMap) k :
  (kmap IdString idx : MapBased.ModuleMap) !! IdString k = idx !! k.
Proof. apply lookup_kmap, _. Qed.

Lemma size_kmap_IdString (idx : ModuleMap) :
  size (kmap IdString idx : MapBased.ModuleMap) = size idx.
Proof.
  rewrite <- !length_map_to_list, (map_to_list_kmap IdString). apply length_fmap.
Qed.

Section MapLoop.
Context (o : FullOptions) (mp : MapBased.ModuleMap).
Implicit Types (self : JsId → gset JsId → MapBased.Completion).

Lemma map_loop_skip self init cur nm r rs seen :
  truthyId (Reason.moduleId r) = false ∨ mp !! Reason.moduleId r = None ∨
  allowAsyncCycles o && isDynamic r = true →
  MapBased.isCyclic_loop o self init cur nm mp (r :: rs) seen
  = MapBased.isCyclic_loop o self init cur nm mp rs seen.
Proof.
  intros H. cbn [MapBased.isCyclic_loop].
  destruct (negb (truthyId (Reason.moduleId r)) ||
            negb (bool_decide (is_Some (mp !! Reason.moduleId r)))) eqn:Hskip;
    [done|].
  apply orb_false_iff in Hskip
    as [Ht%negb_false_iff Hhas%negb_false_iff%bool_decide_eq_true].
  destruct H as [H|[H|H]].
  - congruence.
  - rewrite H in Hhas. by destruct Hhas.
  - by rewrite H.
Qed.

Lemma map_loop_follow self init cur nm r rs seen rm :
  truthyId (Reason.moduleId r) = true → mp !! Reason.moduleId r = Some rm →
  allowAsyncCycles o && isDynamic r = false →
  MapBased.isCyclic_loop o self init cur nm mp (r :: rs) seen
  = if bool_decide (Reason.moduleId r = init) && negb (bool_decide (cur = init))
    then MapBased.Return
           (Some [MapBased.nameOr (StatsModule.name rm) (Reason.moduleId r);
                  MapBased.nameOr nm cur]) seen
    else match self (Reason.moduleId r) seen with
         | MapBased.Return (Some cyclePath) seen' =>
             MapBased.Return (Some (cyclePath ++ [MapBased.nameOr nm cur])%list) seen'
         | MapBased.Return None seen' =>
             MapBased.isCyclic_loop o self init cur nm mp rs seen'
         | MapBased.Timeout => MapBased.Timeout
         end.
Proof.
  intros Ht Hrm Hd. cbn [MapBased.isCyclic_loop].
  rewrite Ht, Hrm, Hd. cbn [negb orb]. rewrite bool_decide_eq_true_2 by eauto.
  done.
Qed.

End MapLoop.

Section MapAgree.
Context (o : FullOptions) (idx : ModuleMap).
Hypothesis Hplain : plain idx.
Hypothesis Hreasons :
  ∀ k x r, idx !! k = Some x → r ∈ default [] (StatsModule.reasons x) →
           truthyId (Reason.moduleId r) = true →
           ∃ i, Reason.moduleId r = IdString i.
Implicit Types (s seen : gset string).

Lemma agree_loop (self : string → gset string → Completion)
    (selfM : JsId → gset JsId → MapBased.Completion) init cur nm :
  (∀ k s res s', self k s = Return res s' → s ⊆ s') →
  (∀ k s res s', k ∉ s → init ∈ s → self k s = Return res s' →
                 selfM (IdString k) (set_map IdString s) = asMapResult res s') →
  (∀ k s, k ∈ s → selfM (IdString k) (set_map IdString s)
                  = MapBased.Return None (set_map IdString s)) →
  ∀ rs seen res seen',
    (∀ r, r ∈ rs → truthyId (Reason.moduleId r) = true →
                   ∃ i, Reason.moduleId r = IdString i) →
    init ∈ seen →
    isCyclic_loop o self init cur nm idx rs seen = Return res seen' →
    MapBased.isCyclic_loop o selfM (IdString init) (IdString cur) nm
      (kmap IdString idx) rs (set_map IdString seen)
    = asMapResult res seen'.
Proof.
  intros Hmono Hself Hseen rs.
  induction rs as [|r rs IH]; intros seen res seen' Hrs Hinit Hrun.
  { by injection Hrun as <- <-. }
  assert (Hrs' : ∀ r', r' ∈ rs → truthyId (Reason.moduleId r') = true →
                       ∃ i, Reason.moduleId r' = IdString i).
  { intros r' Hr'. apply Hrs. by right. }
  destruct (followedModule o idx r) as [rm|] eqn:Hf.
  - apply followedModule_Some in Hf as Hf'. destruct Hf' as (Hrm & Ht & Hd).
    unfold reasonModule in Hrm.
    destruct (truthyId (Reason.moduleId r)) eqn:Htr; [|done].
    destruct (Hrs r) as [s Hs]; [left|done|].
    rewrite Hs in Hrm. cbn [jsString] in Hrm. apply getProperty_Own in Hrm.
    destruct (Hplain _ _ Hrm) as [Hid Hni].
    assert (Hkey : keyOf rm = s) by (unfold keyOf; by rewrite Hid).
    rewrite (map_loop_follow o _ _ _ _ _ _ _ _ rm);
      [|done|by rewrite Hs, lookup_asMap|done].
    rewrite Hs. destruct (decide (s ∈ seen)) as [Hin|Hin].
    + rewrite (loop_seen o idx _ _ _ _ _ _ _ rm Hf) in Hrun
        by (apply inObject_true; left; by rewrite Hkey).
      rewrite Hid in Hrun. cbn [strictEq] in Hrun.
      destruct (decide (s = init)) as [->|Hne].
      * rewrite bool_decide_eq_true_2 in Hrun by done.
        rewrite (bool_decide_eq_true_2 (IdString init = IdString init)) by done.
        destruct (decide (cur = init)) as [->|Hc].
        -- rewrite bool_decide_eq_true_2 in Hrun by done.
           rewrite (bool_decide_eq_true_2 (IdString init = IdString init)) by done.
           cbn [negb andb] in *. rewrite Hseen by done. by apply IH.
        -- rewrite bool_decide_eq_false_2 in Hrun by done.
           rewrite (bool_decide_eq_false_2 (IdString cur = IdString init))
             by (by intros [= ?]).
           cbn [negb andb] in *. injection Hrun as <- <-.
           unfold asMapResult. rewrite !nameOr_string. unfold displayOf.
           by rewrite Hkey.
      * rewrite bool_decide_eq_false_2 in Hrun by done.
        rewrite (bool_decide_eq_false_2 (IdString s = IdString init))
          by (by intros [= ?]).
        cbn [negb andb] in *. rewrite Hseen by done. by apply IH.
    + rewrite (loop_fresh o idx _ _ _ _ _ _ _ rm Hf) in Hrun
        by (apply inObject_false; by rewrite Hkey).
      rewrite Hkey in Hrun.
      rewrite (bool_decide_eq_false_2 (IdString s = IdString init))
        by (intros [= ->]; done).
      cbn [andb].
      destruct (self s seen) as [| |res' s'] eqn:Hcall; [done|done|].
      rewrite (Hself _ _ _ _ Hin Hinit Hcall). unfold asMapResult at 1.
      destruct res' as [p|]; cbn [fmap option_fmap option_map].
      * injection Hrun as <- <-. unfold asMapResult. cbn [fmap option_fmap option_map].
        by rewrite fmap_app, nameOr_string.
      * apply IH; [done| |done]. apply Hmono in Hcall. set_solver.
  - rewrite loop_skip in Hrun by done. rewrite map_loop_skip; [by apply IH|].
    apply followedModule_None in Hf. unfold reasonModule in Hf.
    destruct (truthyId (Reason.moduleId r)) eqn:Htr; [|by left].
    destruct (Hrs r) as [s Hs]; [left|done|]. right.
    rewrite Hs in *. cbn [jsString] in Hf. rewrite lookup_asMap.
    destruct (idx !! s) as [rm|] eqn:Hrm; [|by left]. right.
    apply getProperty_Own in Hrm as Hg. rewrite Hg in Hf.
    destruct (Hplain _ _ Hrm) as [Hid _]. rewrite Hid in Hf.
    destruct Hf as [Hf|Hf]; [|done]. cbn [truthyId] in *. congruence.
Qed.

Lemma agree_isCyclic fuel :
  ∀ fuelM init cur seen res seen',
    (fuel < fuelM)%nat → cur ∉ seen → init ∈ {[cur]} ∪ seen →
    isCyclic o fuel init cur idx seen = Return res seen' →
    MapBased.isCyclic o fuelM (IdString init) (IdString cur) (kmap IdString idx)
      (set_map IdString seen)
    = asMapResult res seen'.
Proof.
  induction fuel as [|fuel IH]; intros fuelM init cur seen res seen' Hlt Hcur Hinit Hrun;
    [done|].
  destruct fuelM as [|fuelM]; [lia|].
  cbn [isCyclic] in Hrun. cbn [MapBased.isCyclic].
  rewrite bool_decide_eq_false_2 by (by rewrite elem_of_asMap).
  rewrite <- asMap_insert, lookup_asMap.
  destruct (getProperty idx cur) as [[cm|nm]|] eqn:Hcm; [| |done].
  - apply getProperty_Own in Hcm. rewrite Hcm.
    apply (agree_loop (fun k s => isCyclic o fuel init k idx s)); [| | | |done|done].
    + intros k s res' s' Hcall. apply isCyclic_seen_mono in Hcall. set_solver.
    + intros k s res' s' Hk Hi Hcall. apply IH; [lia|done|set_solver|done].
    + intros k s Hk. destruct fuelM as [|fuelM]; [lia|].
      cbn [MapBased.isCyclic]. by rewrite bool_decide_eq_true_2 by (by rewrite elem_of_asMap).
    + intros r Hr. by eapply Hreasons.
  - apply getProperty_Inherited in Hcm as [Hcm _]. rewrite Hcm.
    cbn in Hrun. injection Hrun as <- <-. done.
Qed.

Lemma agree_detect m res seen' :
  detect o idx m = Return res seen' →
  MapBased.detect o (kmap IdString idx) (IdString m) = asMapResult res seen'.
Proof.
  intros Hrun. unfold MapBased.detect.
  rewrite <- (set_map_empty (C:=gset string) (D:=gset JsId) IdString).
  apply (agree_isCyclic (S (size idx))); [|set_solver|set_solver|done].
  rewrite size_kmap_IdString. lia.
Qed.

End MapAgree.

(** X9.  When the ids of the retained modules are strings that do not name
    a property of [Object.prototype] and the truthy source ids of their
    reasons are strings, the [Map] of the [Map]-based implementation is the
    index of [src/index.ts] key by key, and from every indexed start the
    two searches return the same path and leave the same visited
    modules. *)
Theorem map_version_agrees (o : FullOptions)
    (modules : option (list StatsModule.t)) (m : string) :
  let idx := modulesById o modules in
  let mp := MapBased.modulesById o modules in
  stringIds o modules → is_Some (idx !! m) →
  mp = kmap IdString idx ∧
  ∃ res seen', detect o idx m = Return res seen' ∧
               MapBased.detect o mp (IdString m) = asMapResult res seen'.
Proof.
  intros idx mp Hs Hm.
  pose proof (modulesById_keyed o modules) as Hkeyed. fold idx in Hkeyed.
  assert (Hmp : mp = kmap IdString idx) by (by apply map_modulesById_kmap).
  split; [done|].
  destruct (detect_returns o idx m Hkeyed Hm) as (res & seen' & Hrun).
  exists res, seen'. split; [done|]. rewrite Hmp.
  apply agree_detect; [| |done].
  - intros k x (Hin & Hk & Hr)%modulesById_lookup.
    destruct (Hs x Hin Hr) as [(s & Hid & Hi) _].
    unfold keyOf in Hk. rewrite Hid in Hk. cbn in Hk. by subst s.
  - intros k x r (Hin & _ & Hr)%modulesById_lookup. by apply (Hs x Hin Hr).
Qed.

Lemma map_version_agrees_witness :
  stringIds defaults two_cycle ∧
  MapBased.detect defaults (MapBased.modulesById defaults two_cycle) (IdString "a.js")
  = asMapResult (Some ["a.js"; "b.js"; "a.js"]) {["a.js"; "b.js"]}.
Proof.
  assert (Hs : stringIds defaults two_cycle).
  { intros x Hx _. cbn in Hx.
    repeat (apply elem_of_cons in Hx as [->|Hx];
            [split; [by eexists|];
             intros r Hr Ht; cbn in Hr;
             repeat (apply elem_of_cons in Hr as [->|Hr];
                     [first [discriminate Ht|by eexists]|]);
             by apply elem_of_nil in Hr|]).
    by apply elem_of_nil in Hx. }
  assert (Hm : is_Some (modulesById defaults two_cycle !! "a.js")).
  { eexists. vm_compute. reflexivity. }
  split; [exact Hs|].
  destruct (map_version_agrees defaults two_cycle "a.js" Hs Hm)
    as (_ & res & seen' & Hrun & HrunM).
  rewrite detect_two_cycle in Hrun. injection Hrun as <- <-. exact HrunM.
Defined.

(** X10.  In the [Map]-based [apply] the keys of the [Map] are pairwise
    distinct and are exactly the ids the [Map] holds, so the
    [checkedModules] test never skips a module: the loop does what it would
    do without the test.  Nothing in the [Map]-based search throws and its
    recursion is bounded, so every search returns and the loop
    completes. *)
Theorem checkedModules_never_skips (o : FullOptions)
    (callback : option MapBased.Callback)
    (modules : option (list StatsModule.t)) (c : Compilation) :
  let mp := MapBased.modulesById o modules in
  let keys := MapBased.keys o modules in
  NoDup keys ∧
  (∀ k, k ∈ keys ↔ is_Some (mp !! k)) ∧
  MapBased.apply_loop o callback mp keys ∅ c
  = MapBased.unguarded_loop o callback mp keys c ∧
  is_Some (MapBased.apply_loop o callback mp keys ∅ c) ∧
  (∀ k, ∃ res seen', MapBased.detect o mp k = MapBased.Return res seen').
Proof.
  intros mp keys.
  pose proof (map_keys_NoDup o modules) as Hnd. fold keys in Hnd.
  assert (Heq : MapBased.apply_loop o callback mp keys ∅ c
                = MapBased.unguarded_loop o callback mp keys c).
  { apply map_apply_loop_unguarded; [done|]. intros k _. set_solver. }
  split; [done|]. split; [apply map_keys_elem|]. split; [done|]. split.
  - rewrite Heq. apply map_unguarded_loop_returns.
  - apply map_detect_returns.
Qed.
